(** * Record deduplication by signature (deduplicacao_assinatura.py)

    A shallow embedding of the PySpark script and the properties its
    specification states about it.

    Modelling conventions.
    - A Python [str] is a [string]; a character is a code point below 256
      (the Latin-1 range, which covers Portuguese names), and the character
      classes used by [str.lower], [str.split], [str.strip] and the [re]
      module ([\s], [\w], [\b]) are the ones Python has on that range.
    - A nullable SQL column is an [option]; a SQL condition is an
      [option bool] with three-valued logic, and a row passes a [filter],
      a [join] or a [when] only when its condition is [Some true].
    - A DataFrame is the [list] of its rows.
    - A float is read as the rational it denotes.  The columns [jaccard],
      [lev_score] and [score_final] of the pipeline are the exact quotients
      and sums; [Float] has the same columns with the rounding of binary32
      and binary64.
    - A Python exception is the [Raise] case of [result]. *)

From Stdlib Require Import QArith Qround Qpower Lqa Ascii String NArith Lia.
From stdpp Require Import base option list strings gmap.

(** ** Characters *)

Module Char.

Definition code (c : ascii) : N := N_of_ascii c.

Definition between (lo hi : N) (c : ascii) : bool :=
  ((lo <=? code c) && (code c <=? hi))%N.

(** [str.isspace] on one character, which is also [\s] of [re]. *)
Definition is_space (c : ascii) : bool :=
  between 9 13 c || between 28 32 c || between 133 133 c
  || between 160 160 c.

(** [\w] of [re]: alphanumeric ([str.isalnum]) or underscore. *)
Definition is_word (c : ascii) : bool :=
  between 48 57 c || between 65 90 c || between 95 95 c
  || between 97 122 c
  || between 170 170 c || between 178 179 c || between 181 181 c
  || between 185 186 c || between 188 190 c
  || between 192 214 c || between 216 246 c || between 248 255 c.

(** [str.lower] on one character. *)
Definition lower (c : ascii) : ascii :=
  if between 65 90 c || between 192 214 c || between 216 222 c
  then ascii_of_N (code c + 32)
  else c.

(** [str.isprintable] on one character. *)
Definition is_printable (c : ascii) : bool :=
  between 32 126 c || between 161 172 c || between 174 255 c.

End Char.

(** ** Exceptions *)

Inductive exn := IndexError | AnalysisException.

Inductive result (A : Type) :=
| Ok (a : A)
| Raise (e : exn).
Arguments Ok {A} a.
Arguments Raise {A} e.

#[global] Instance result_ret : MRet result := λ A a, Ok a.

#[global] Instance result_bind : MBind result := λ A B k r,
  match r with
  | Ok a => k a
  | Raise e => Raise e
  end.

#[global] Instance result_fmap : FMap result := λ A B f r,
  match r with
  | Ok a => Ok (f a)
  | Raise e => Raise e
  end.

(** ** Normalizer *)

(** [nome.lower()] *)
Fixpoint lower (s : string) : string :=
  match s with
  | "" => ""
  | String c r => String (Char.lower c) (lower r)
  end.

(** The alternatives of [\b(de|da|do|das|dos)\b], in the order the
    regular expression tries them. *)
Definition conectivos : list string := ["de"; "da"; "do"; "das"; "dos"].

(** [strip_prefix p s] is what is left of [s] after the literal [p]. *)
Fixpoint strip_prefix (p s : string) : option string :=
  match p, s with
  | "", _ => Some s
  | String a p', String b s' =>
      if Ascii.eqb a b then strip_prefix p' s' else None
  | String _ _, "" => None
  end.

Definition starts_word (s : string) : bool :=
  match s with
  | "" => false
  | String c _ => Char.is_word c
  end.

(** [\b] between a character ([prev_word] says whether it exists and is a
    word character) and the text [s] that follows. *)
Definition word_boundary (prev_word : bool) (s : string) : bool :=
  xorb prev_word (starts_word s).

(** Whether the last character of [s] is a word character; [prev_word]
    stands for the character before [s]. *)
Fixpoint ends_word (prev_word : bool) (s : string) : bool :=
  match s with
  | "" => prev_word
  | String c r => ends_word (Char.is_word c) r
  end.

(** One alternative followed by the closing [\b]: the number of characters
    matched. *)
Definition match_alt (prev_word : bool) (alt s : string) : option nat :=
  match strip_prefix alt s with
  | Some r =>
      if word_boundary (ends_word prev_word alt) r
      then Some (String.length alt)
      else None
  | None => None
  end.

Fixpoint match_alts (prev_word : bool) (alts : list string) (s : string)
  : option nat :=
  match alts with
  | [] => None
  | alt :: alts' =>
      match match_alt prev_word alt s with
      | Some n => Some n
      | None => match_alts prev_word alts' s
      end
  end.

(** An attempt to match [\b(de|da|do|das|dos)\b] at one position. *)
Definition match_conectivo (prev_word : bool) (s : string) : option nat :=
  if word_boundary prev_word s then match_alts prev_word conectivos s
  else None.

(** [re.sub(r"\b(de|da|do|das|dos)\b", "", _)], scanning from the left:
    [skip] counts the characters of the current match still to be dropped,
    [prev_word] describes the character before the position. *)
Fixpoint sub_conectivos_from (skip : nat) (prev_word : bool) (s : string)
  : string :=
  match s with
  | "" => ""
  | String c r =>
      match skip with
      | S k => sub_conectivos_from k (Char.is_word c) r
      | O =>
          match match_conectivo prev_word s with
          | Some n => sub_conectivos_from (pred n) (Char.is_word c) r
          | None => String c (sub_conectivos_from 0 (Char.is_word c) r)
          end
      end
  end.

Definition sub_conectivos (s : string) : string :=
  sub_conectivos_from 0 false s.

(** [re.sub(r"\s+", " ", _)]: [in_run] says that the position is inside a
    run of whitespace whose replacement was already written. *)
Fixpoint sub_espacos_from (in_run : bool) (s : string) : string :=
  match s with
  | "" => ""
  | String c r =>
      if Char.is_space c then
        if in_run then sub_espacos_from true r
        else String " " (sub_espacos_from true r)
      else String c (sub_espacos_from false r)
  end.

Definition sub_espacos (s : string) : string := sub_espacos_from false s.

Fixpoint lstrip (s : string) : string :=
  match s with
  | "" => ""
  | String c r => if Char.is_space c then lstrip r else s
  end.

Fixpoint rstrip (s : string) : string :=
  match s with
  | "" => ""
  | String c r =>
      match rstrip r with
      | "" => if Char.is_space c then "" else String c ""
      | r' => String c r'
      end
  end.

(** [str.strip()] *)
Definition strip (s : string) : string := rstrip (lstrip s).

Definition normalize_nome (nome : string) : string :=
  let nome := lower nome in
  let nome := sub_conectivos nome in
  let nome := strip (sub_espacos nome) in
  nome.

(** ** Signature builder *)

Definition cons_token (w : string) (ws : list string) : list string :=
  match w with
  | "" => ws
  | _ => w :: ws
  end.

(** [split_aux s] is the token that starts at the head of [s] (empty when [s]
    starts with whitespace) and the tokens after it. *)
Fixpoint split_aux (s : string) : string * list string :=
  match s with
  | "" => ("", [])
  | String c r =>
      let '(w, ws) := split_aux r in
      if Char.is_space c then ("", cons_token w ws) else (String c w, ws)
  end.

(** [str.split()] without arguments: the maximal runs of characters that are
    not whitespace. *)
Definition split (s : string) : list string :=
  let '(w, ws) := split_aux s in cons_token w ws.

(** [l[i]] on a Python list, negative indices counting from the end. *)
Definition item (l : list string) (i : Z) : result string :=
  let n := Z.of_nat (length l) in
  let j := if (i <? 0)%Z then (i + n)%Z else i in
  if ((0 <=? j) && (j <? n))%Z then
    match l !! Z.to_nat j with
    | Some x => Ok x
    | None => Raise IndexError
    end
  else Raise IndexError.

(** The Python objects that a part of the signature can be. *)
Inductive obj :=
| Str (s : string)
| Tuple2 (x y : string).

(** [return partes[0], partes[-1] if len(partes) > 1 else (partes[0], partes[0])]:
    the conditional expression binds tighter than the comma, so that the
    [else] branch is the second component of the returned pair. *)
Definition extract_first_last (nome : string) : result (string * obj) :=
  let partes := split (strip nome) in
  x ← item partes 0;
  y ← (if (1 <? length partes)%nat then Str <$> item partes (-1)
       else p ← item partes 0; q ← item partes 0; mret (Tuple2 p q));
  mret (x, y).

Definition hex_digit (n : N) : ascii :=
  if (n <? 10)%N then ascii_of_N (48 + n) else ascii_of_N (87 + n).

Fixpoint contains (c : ascii) (s : string) : bool :=
  match s with
  | "" => false
  | String d r => Ascii.eqb c d || contains c r
  end.

Definition repr_char (quote c : ascii) : string :=
  if Ascii.eqb c quote || Ascii.eqb c "\" then String "\" (String c "")
  else if Ascii.eqb c "009" then "\t"
  else if Ascii.eqb c "010" then "\n"
  else if Ascii.eqb c "013" then "\r"
  else if Char.is_printable c then String c ""
  else String "\" (String "x"
         (String (hex_digit (Char.code c / 16))
            (String (hex_digit (Char.code c mod 16)) ""))).

Fixpoint repr_chars (quote : ascii) (s : string) : string :=
  match s with
  | "" => ""
  | String c r => repr_char quote c +:+ repr_chars quote r
  end.

(** [repr] of a [str]: single quotes, unless the text has a single quote and
    no double quote. *)
Definition repr (s : string) : string :=
  let quote : ascii :=
    if contains "'" s && negb (contains "034" s) then "034"%char
    else "'"%char in
  String quote (repr_chars quote s) +:+ String quote "".

(** What a replacement field of an f-string writes for an object. *)
Definition format (o : obj) : string :=
  match o with
  | Str s => s
  | Tuple2 x y => "(" +:+ repr x +:+ ", " +:+ repr y +:+ ")"
  end.

(** The same for an argument that Spark passes as a [str] or as [None]. *)
Definition format_arg (o : option string) : string :=
  match o with
  | Some s => s
  | None => "None"
  end.

Definition gerar_assinatura (nome_aluno data_nasc nome_mae sexo : option string)
  : result string :=
  let nome_aluno := normalize_nome (default "" nome_aluno) in
  let nome_mae := normalize_nome (default "" nome_mae) in
  '(pn_a, un_a) ← extract_first_last nome_aluno;
  '(pn_m, un_m) ← extract_first_last nome_mae;
  mret (pn_a +:+ " " +:+ format un_a +:+ " " +:+ format_arg data_nasc +:+ " "
        +:+ pn_m +:+ " " +:+ format un_m +:+ " " +:+ format_arg sexo).

Definition assinatura_udf := gerar_assinatura.

(** ** Similarity scorer *)

(** [jaccard_udf]: the value is the quotient of the two set sizes. *)
Definition jaccard_udf (str1 str2 : string) : Q :=
  let set1 : gset string := list_to_set (split str1) in
  let set2 : gset string := list_to_set (split str2) in
  let inter := size (set1 ∩ set2) in
  let union := size (set1 ∪ set2) in
  if decide (union ≠ 0%nat)
  then (inject_Z (Z.of_nat inter) / inject_Z (Z.of_nat union))%Q
  else 0%Q.

(** Spark's [levenshtein] is the unit-cost edit distance, computed row by
    row.  A row holds the distances from one suffix of the first text to
    every suffix of the second, the whole second text first. *)
Fixpoint first_row (t : string) : list nat :=
  match t with
  | "" => [0%nat]
  | String _ t' => String.length t :: first_row t'
  end.

(** The row of [String a s'] from the row [prev] of [s']; [n] is the length
    of [String a s']. *)
Fixpoint next_row (a : ascii) (n : nat) (t : string) (prev : list nat)
  : list nat :=
  match t with
  | "" => [n]
  | String b t' =>
      let rest := next_row a n t' (tail prev) in
      let cost := if Ascii.eqb a b then 0%nat else 1%nat in
      Nat.min (Nat.min (S (hd 0%nat prev)) (S (hd 0%nat rest)))
              (hd 0%nat (tail prev) + cost)
      :: rest
  end.

Fixpoint lev_row (s t : string) : list nat :=
  match s with
  | "" => first_row t
  | String a s' => next_row a (String.length s) t (lev_row s' t)
  end.

Definition levenshtein (s t : string) : nat := hd 0%nat (lev_row s t).

(** SQL arithmetic on nullable numbers: NULL absorbs, and [/] by zero is
    NULL (an error under ANSI mode: no number either way). *)
Definition sql_lift (f : Q → Q → Q) (x y : option Q) : option Q :=
  match x, y with
  | Some p, Some q => Some (f p q)
  | _, _ => None
  end.

Definition sql_div (x y : option Q) : option Q :=
  match x, y with
  | Some p, Some q => if Qeq_bool q 0 then None else Some (p / q)%Q
  | _, _ => None
  end.

Definition of_nat (n : nat) : Q := inject_Z (Z.of_nat n).

(** The columns that [withColumn] adds to a joined pair, as functions of the
    two signatures. *)
Definition jaccard (a b : string) : option Q := Some (jaccard_udf a b).

Definition lev_dist (a b : string) : option Q :=
  Some (of_nat (levenshtein a b)).

Definition len_max (a b : string) : nat :=
  if (String.length b <? String.length a)%nat then String.length a
  else String.length b.

Definition lev_score (a b : string) : option Q :=
  sql_lift Qminus (Some 1%Q) (sql_div (lev_dist a b) (Some (of_nat (len_max a b)))).

Definition score_final (a b : string) : option Q :=
  sql_lift Qplus (sql_lift Qmult (Some (75 # 100)%Q) (jaccard a b))
                 (sql_lift Qmult (Some (25 # 100)%Q) (lev_score a b)).

(** ** Float columns

    The values that the float columns of the script hold.  A finite IEEE
    value is read as the rational it denotes; [round] is rounding to nearest
    with ties to even, in binary32 for [FloatType] and in binary64 for
    Python's [float] and Spark's [DoubleType].  Overflow is left out: the
    values at hand are quotients of lengths and of set sizes, which Spark
    bounds by 2^31. *)

Module Float.

Record format := { prec : Z; emin : Z }.

Definition binary32 : format := {| prec := 24; emin := -149 |}.
Definition binary64 : format := {| prec := 53; emin := -1074 |}.

Definition pow2 (e : Z) : Q := (2 ^ e)%Q.

(** The exponent [e] of a positive rational: 2^e <= a < 2^(e+1). *)
Definition ilog2 (a : Q) : Z :=
  let k := (Z.log2 (Qnum a) - Z.log2 (Zpos (Qden a)))%Z in
  if Qle_bool (pow2 k) a then k else (k - 1)%Z.

(** The nearest integer, the even one of two that are equally near. *)
Definition rne (q : Q) : Z :=
  let f := Qfloor q in
  match (q - inject_Z f ?= 1 # 2)%Q with
  | Lt => f
  | Gt => (f + 1)%Z
  | Eq => if Z.even f then f else (f + 1)%Z
  end.

(** Rounding of a positive rational: to a multiple of 2^u, where [u] is the
    exponent of the last place of the binade of [a], not below [emin]. *)
Definition round_pos (f : format) (a : Q) : Q :=
  let u := Z.max (ilog2 a - prec f + 1) (emin f) in
  (inject_Z (rne (a * pow2 (- u))) * pow2 u)%Q.

Definition round (f : format) (x : Q) : Q :=
  Qred match Qnum x with
       | Z0 => 0%Q
       | Zpos _ => round_pos f x
       | Zneg _ => (- round_pos f (- x))%Q
       end.


(** [FloatType] and [DoubleType] (and Python's [float]). *)
Definition single (x : Q) : Q := round binary32 x.
Definition double (x : Q) : Q := round binary64 x.

(** [jaccard_udf] returns the double that Python's division gives. *)
Definition jaccard_udf (str1 str2 : string) : Q :=
  let set1 : gset string := list_to_set (split str1) in
  let set2 : gset string := list_to_set (split str2) in
  let inter := size (set1 ∩ set2) in
  let union := size (set1 ∪ set2) in
  if decide (union ≠ 0%nat) then double (of_nat inter / of_nat union)
  else 0%Q.

(** Arithmetic of double columns: NULL absorbs, the result is rounded. *)
Definition lift (f : Q → Q → Q) (x y : option Q) : option Q :=
  match x, y with
  | Some p, Some q => Some (double (f p q))
  | _, _ => None
  end.

Definition div (x y : option Q) : option Q :=
  match x, y with
  | Some p, Some q => if Qeq_bool q 0 then None else Some (double (p / q))
  | _, _ => None
  end.

(** The columns.  [jaccard] is a [FloatType] column and [lev_dist] is cast
    to it; [/], [-], [*] and [+] work on doubles, to which a float and an
    int are converted without rounding. *)
Definition jaccard (a b : string) : option Q :=
  Some (single (jaccard_udf a b)).

Definition lev_dist (a b : string) : option Q :=
  Some (single (of_nat (levenshtein a b))).

Definition lev_score (a b : string) : option Q :=
  lift Qminus (Some 1%Q) (div (lev_dist a b) (Some (of_nat (len_max a b)))).

Definition score_final (a b : string) : option Q :=
  lift Qplus (lift Qmult (Some (75 # 100)%Q) (jaccard a b))
             (lift Qmult (Some (25 # 100)%Q) (lev_score a b)).


End Float.

(** ** Classifier *)

(** SQL comparisons: NULL when an operand is NULL. *)
Definition sql_cmp {A} (f : A → A → bool) (x y : option A) : option bool :=
  match x, y with
  | Some p, Some q => Some (f p q)
  | _, _ => None
  end.

Definition sql_eq (x y : option string) : option bool := sql_cmp String.eqb x y.
Definition sql_ne (x y : option string) : option bool :=
  sql_cmp (λ p q, negb (String.eqb p q)) x y.
Definition sql_ge (x y : option Q) : option bool :=
  sql_cmp (λ p q, Qle_bool q p) x y.
Definition sql_lt (x y : option Q) : option bool :=
  sql_cmp (λ p q, negb (Qle_bool q p)) x y.

(** SQL [AND]: false wins over NULL. *)
Definition sql_and (x y : option bool) : option bool :=
  match x, y with
  | Some false, _ | _, Some false => Some false
  | Some true, Some true => Some true
  | _, _ => None
  end.

(** A condition selects a row only when it is true. *)
Definition holds (c : option bool) : bool :=
  match c with
  | Some true => true
  | _ => false
  end.

(** The rows of [df].  The id and the signature are taken as not null, as
    the data model has them; the other columns are nullable. *)
Record Registro := {
  id : Z;
  cpf : option string;
  nome : option string;
  data_nasc : option string;
  nome_mae : option string;
  sexo : option string;
  assinatura : string
}.

(** The chain of [when]s of [status_final]; [score] is the pair's
    [score_final] column. *)
Definition status_final (a b : Registro) (score : option Q) : string :=
  if bool_decide (cpf a = None) then "Q001"
  else if holds (sql_ge score (Some (75 # 100)%Q)) then "OK"
  else if holds (sql_lt score (Some (60 # 100)%Q)) then "Q002"
  else if holds (sql_and (sql_ne (data_nasc a) (data_nasc b))
                         (sql_ne (sexo a) (sexo b))) then "Q006"
  else "VALIDAR_NOMES".

(** ** Pipeline *)

(** The condition of the self-join. *)
Definition join_on (a b : Registro) : option bool :=
  sql_and (sql_and (sql_eq (cpf a) (cpf b)) (Some (id a <? id b)%Z))
          (Some (negb (String.eqb (assinatura a) (assinatura b)))).

Definition df_joined (df : list Registro) : list (Registro * Registro) :=
  filter (λ p, holds (join_on p.1 p.2) = true) (cprod df df).

(** The rows of [df_resultado], after the [select]. *)
Module Resultado.
Record t := {
  id_a : Z;
  id_b : Z;
  cpf : option string;
  score_final : option Q;
  status_final : string
}.
Definition columns : list string :=
  ["id_a"; "id_b"; "cpf"; "score_final"; "status_final"].
End Resultado.

Definition resultado (p : Registro * Registro) : Resultado.t :=
  let score := score_final (assinatura p.1) (assinatura p.2) in
  {| Resultado.id_a := id p.1;
     Resultado.id_b := id p.2;
     Resultado.cpf := cpf p.1;
     Resultado.score_final := score;
     Resultado.status_final := status_final p.1 p.2 score |}.

Definition df_resultado (df : list Registro) : list Resultado.t :=
  resultado <$> df_joined df.

Definition df_ingestao (df : list Registro) : list Resultado.t :=
  filter (λ r, Resultado.status_final r = "OK") (df_resultado df).

Definition df_log (df : list Registro) : list Resultado.t :=
  filter (λ r, String.prefix "Q" (Resultado.status_final r) = true)
         (df_resultado df).

Definition cpfs_duplicados (df : list Registro) : list (option string) :=
  remove_dups (Resultado.cpf <$> df_resultado df).

(** [df.join(cpfs_duplicados, on="cpf", how="left_anti")]: the rows of [df]
    that no row of [cpfs_duplicados] matches on [cpf]. *)
Definition df_unicos (df : list Registro) : list Registro :=
  filter (λ r, Forall (λ k, holds (sql_eq (cpf r) k) = false)
                      (cpfs_duplicados df)) df.

(** The columns of [df] that the script names; [outras] are the columns the
    table may have besides them. *)
Definition df_columns (outras : list string) : list string :=
  ["id"; "cpf"; "nome"; "data_nasc"; "nome_mae"; "sexo"; "assinatura"]
  ++ outras.

Definition same_columns (xs ys : list string) : bool :=
  bool_decide (xs ⊆ ys) && bool_decide (ys ⊆ xs).

(** [unionByName] with [allowMissingColumns] left at its default: the two
    sides must have the same column names, else the analysis of the plan
    fails. *)
Definition unionByName {A B} (cols : list string) (rows : list A)
    (other_cols : list string) (other : list B) : result (list (A + B)) :=
  if same_columns cols other_cols then Ok ((inl <$> rows) ++ (inr <$> other))
  else Raise AnalysisException.

(** The second assignment to [df_ingestao]. *)
Definition df_ingestao_final (outras : list string) (df : list Registro)
  : result (list (Resultado.t + Registro)) :=
  unionByName Resultado.columns (df_ingestao df)
              (df_columns outras) (df_unicos df).

(** * Notions used in the proofs *)

(** The word characters at the head of a text. *)
Fixpoint word_prefix (s : string) : string :=
  match s with
  | "" => ""
  | String c r => if Char.is_word c then String c (word_prefix r) else ""
  end.

Fixpoint all_word (s : string) : bool :=
  match s with
  | "" => true
  | String c r => Char.is_word c && all_word r
  end.

Definition is_conectivo (w : string) : bool :=
  existsb (String.eqb w) conectivos.

(** The regular expression of the connectives matches at no position. *)
Fixpoint no_match (prev_word : bool) (s : string) : Prop :=
  match s with
  | "" => True
  | String c r =>
      match_conectivo prev_word s = None ∧ no_match (Char.is_word c) r
  end.

(** Whitespace is single spaces only; with [in_run] the text does not start
    with one. *)
Fixpoint collapsed (in_run : bool) (s : string) : Prop :=
  match s with
  | "" => True
  | String c r =>
      if Char.is_space c then in_run = false ∧ c = " "%char ∧ collapsed true r
      else collapsed false r
  end.

Fixpoint is_lower (s : string) : Prop :=
  match s with
  | "" => True
  | String c r => Char.lower c = c ∧ is_lower r
  end.

Definition starts_space (s : string) : bool :=
  match s with
  | "" => false
  | String c _ => Char.is_space c
  end.

(** A row of the edit-distance table stays below the longer of the two
    texts it compares. *)
Fixpoint row_bounded (n : nat) (t : string) (row : list nat) : Prop :=
  match t, row with
  | "", [x] => (x ≤ n)%nat
  | String _ t', x :: r =>
      (x ≤ Nat.max n (String.length t))%nat ∧ row_bounded n t' r
  | _, _ => False
  end.

Fixpoint all_space (s : string) : bool :=
  match s with
  | "" => true
  | String c r => Char.is_space c && all_space r
  end.

Fixpoint no_space (s : string) : bool :=
  match s with
  | "" => true
  | String c r => negb (Char.is_space c) && no_space r
  end.

(** A text that [split] can return: not empty and free of whitespace. *)
Definition is_token (s : string) : bool :=
  no_space s && negb (String.eqb s "").

(** The edit distance by its recurrence, one cell at a time. *)
Fixpoint lev_spec (s t : string) : nat :=
  match s with
  | "" => String.length t
  | String a s' =>
      (fix cell (t : string) : nat :=
         match t with
         | "" => String.length s
         | String b t' =>
             Nat.min (Nat.min (S (lev_spec s' t)) (S (cell t')))
                     (lev_spec s' t' + if Ascii.eqb a b then 0 else 1)%nat
         end) t
  end.

(** The values of [f] on a text and on each of its suffixes. *)
Fixpoint on_suffixes (f : string → nat) (t : string) : list nat :=
  match t with
  | "" => [f ""]
  | String _ t' => f t :: on_suffixes f t'
  end.

(** The token set that [jaccard_udf] builds. *)
Definition token_set (s : string) : gset string := list_to_set (split s).

(** * A small table *)

Definition registro (i : Z) (k : option string) (n d m x : string) (a : string)
  : Registro :=
  {| id := i; cpf := k; nome := Some n; data_nasc := Some d;
     nome_mae := Some m; sexo := Some x; assinatura := a |}.

Definition maria_1 : Registro :=
  registro 1 (Some "111") "Maria da Silva" "2001-02-03" "Ana Lima" "F"
           "maria silva 2001-02-03 ana lima F".
Definition maria_2 : Registro :=
  registro 2 (Some "111") "Maria Silvo" "2001-02-03" "Ana Lima" "F"
           "maria silvo 2001-02-03 ana lima F".
Definition maria_3 : Registro :=
  registro 3 (Some "111") "Maria Silva" "2001-02-04" "Ana Lima" "M"
           "maria silva 2001-02-04 ana lima M".
Definition marta : Registro :=
  registro 4 (Some "111") "Maria Silva" "2001-02-03" "Ana Lime" "F"
           "maria silva 2001-02-03 ana lime F".
Definition jose : Registro :=
  registro 5 (Some "222") "Jose Souza" "1999-09-09" "Rita Souza" "M"
           "jose souza 1999-09-09 rita souza M".
Definition sem_cpf : Registro :=
  registro 6 None "Jose Souza" "1999-09-09" "Rita Souza" "M"
           "jose souza 1999-09-09 rita souza M".

Definition tabela : list Registro :=
  [maria_1; maria_2; maria_3; marta; jose; sem_cpf].

(** * Properties *)

(** ** Classifier *)

Definition statuses : list string :=
  ["Q001"; "OK"; "Q002"; "Q006"; "VALIDAR_NOMES"].

Lemma status_final_total (a b : Registro) (score : option Q) :
  status_final a b score ∈ statuses.
Proof.
  unfold status_final, statuses.
  destruct (bool_decide _); [set_solver|].
  do 3 (destruct (holds _); [set_solver|]). set_solver.
Qed.



Lemma holds_sql_ne (x y : string) :
  holds (sql_ne (Some x) (Some y)) = true ↔ x ≠ y.
Proof. simpl. by destruct (String.eqb_spec x y). Qed.

Lemma holds_sql_and (c d : option bool) :
  holds (sql_and c d) = true ↔ holds c = true ∧ holds d = true.
Proof. destruct c as [[]|], d as [[]|]; simpl; intuition congruence. Qed.



(** ** Pair generator *)

Lemma holds_sql_eq (x y : option string) :
  holds (sql_eq x y) = true ↔ ∃ k, x = Some k ∧ y = Some k.
Proof.
  destruct x as [p|], y as [q|]; simpl;
    try (split; [done|intros (k & ? & ?); done]).
  destruct (String.eqb_spec p q) as [->|Hne].
  - split; [by exists q|done].
  - split; [done|]. intros (k & ? & ?). congruence.
Qed.

Lemma holds_join_on (a b : Registro) :
  holds (join_on a b) = true ↔
  (∃ k, cpf a = Some k ∧ cpf b = Some k) ∧ (id a < id b)%Z
  ∧ assinatura a ≠ assinatura b.
Proof.
  unfold join_on. rewrite !holds_sql_and, holds_sql_eq. simpl.
  destruct (Z.ltb_spec (id a) (id b)),
    (String.eqb_spec (assinatura a) (assinatura b)); simpl;
    intuition (try done; try lia).
Qed.

Lemma elem_of_df_joined (df : list Registro) (a b : Registro) :
  (a, b) ∈ df_joined df ↔
  a ∈ df ∧ b ∈ df ∧ (∃ k, cpf a = Some k ∧ cpf b = Some k)
  ∧ (id a < id b)%Z ∧ assinatura a ≠ assinatura b.
Proof.
  unfold df_joined.
  rewrite list_elem_of_filter, list_elem_of_cprod, holds_join_on. simpl.
  tauto.
Qed.

(** C6. The pair generator emits exactly the pairs of records of the table
    that share a key that is not null, with the first id below the second
    and with signatures that differ: so no pair with ids out of order, with
    different keys or with equal signatures. *)
Theorem df_joined_exact (df : list Registro) (a b : Registro) :
  (a, b) ∈ df_joined df ↔
  a ∈ df ∧ b ∈ df ∧ (∃ k, cpf a = Some k ∧ cpf b = Some k)
  ∧ (id a < id b)%Z ∧ assinatura a ≠ assinatura b.
Proof.
  unfold df_joined. rewrite list_elem_of_filter, list_elem_of_cprod. simpl.
  split.
  - intros [Hon [Ha Hb]]. apply holds_join_on in Hon. tauto.
  - intros (Ha & Hb & Hon). split; [|done]. by apply holds_join_on.
Qed.

Lemma df_joined_exact_witness :
  ((maria_1, maria_2) ∈ df_joined tabela)
  ∧ ((maria_2, maria_1) ∉ df_joined tabela)
  ∧ ((maria_1, maria_1) ∉ df_joined tabela)
  ∧ ((maria_1, jose) ∉ df_joined tabela).
Proof.
  split_and!.
  - apply (proj2 (df_joined_exact tabela maria_1 maria_2)).
    split_and!; [set_solver|set_solver|by exists "111"|done|done].
  - intros H. apply (proj1 (df_joined_exact tabela maria_2 maria_1)) in H.
    destruct H as (_ & _ & _ & Hid & _). simpl in Hid. lia.
  - intros H. apply (proj1 (df_joined_exact tabela maria_1 maria_1)) in H.
    destruct H as (_ & _ & _ & _ & Hne). by apply Hne.
  - intros H. apply (proj1 (df_joined_exact tabela maria_1 jose)) in H.
    destruct H as (_ & _ & (k & Ha & Hb) & _). simpl in Ha, Hb. congruence.
Defined.

(** C10. A record without key is in no pair, and no row of the result has
    the status Q001. *)
Theorem null_key_never_paired (df : list Registro) :
  (∀ r a b, cpf r = None → (a, b) ∈ df_joined df → a ≠ r ∧ b ≠ r) ∧
  (∀ row, row ∈ df_resultado df → Resultado.status_final row ≠ "Q001").
Proof.
  split.
  - intros r a b Hr (_ & _ & (k & Ha & Hb) & _)%elem_of_df_joined.
    split; intros ->; congruence.
  - intros row ([a b] & -> & (_ & _ & (k & Ha & _) & _)%elem_of_df_joined)
      %list_elem_of_fmap.
    unfold resultado, status_final; simpl.
    rewrite bool_decide_eq_false_2 by congruence.
    by do 3 (destruct (holds _); [done|]).
Qed.

Lemma null_key_never_paired_witness :
  (maria_1 ≠ sem_cpf ∧ maria_2 ≠ sem_cpf)
  ∧ Resultado.status_final (resultado (maria_1, maria_2)) ≠ "Q001".
Proof.
  assert ((maria_1, maria_2) ∈ df_joined tabela) as Hpar.
  { apply elem_of_df_joined.
    split_and!; [set_solver|set_solver|by exists "111"|done|done]. }
  split.
  - apply (proj1 (null_key_never_paired tabela) sem_cpf maria_1 maria_2).
    + reflexivity.
    + exact Hpar.
  - apply (proj2 (null_key_never_paired tabela)).
    apply list_elem_of_fmap_2. exact Hpar.
Defined.

(** ** Output router *)

Lemma df_resultado_status (df : list Registro) (row : Resultado.t) :
  row ∈ df_resultado df → Resultado.status_final row ∈ statuses.
Proof.
  intros ([a b] & -> & _)%list_elem_of_fmap. apply status_final_total.
Qed.

(** C7. Of the classified pairs, the ingestion set has exactly those with
    status OK, the log has exactly those with status Q001, Q002 or Q006, and
    a pair with status VALIDAR_NOMES is in neither. *)
Theorem router_partition (df : list Registro) (row : Resultado.t) :
  (row ∈ df_ingestao df ↔
   row ∈ df_resultado df ∧ Resultado.status_final row = "OK") ∧
  (row ∈ df_log df ↔
   row ∈ df_resultado df ∧ Resultado.status_final row ∈ ["Q001"; "Q002"; "Q006"]) ∧
  ((row ∈ df_resultado df) → Resultado.status_final row = "VALIDAR_NOMES" →
   (row ∉ df_ingestao df) ∧ (row ∉ df_log df)).
Proof.
  unfold df_ingestao, df_log. rewrite !list_elem_of_filter.
  split_and!.
  - split; intros [? ?]; by split.
  - split.
    + intros [Hq Hr]. split; [done|].
      apply df_resultado_status in Hr. unfold statuses in Hr.
      repeat (apply elem_of_cons in Hr as [Hr|Hr];
              [rewrite Hr in Hq |- *; first [discriminate Hq | set_solver]|]).
      by apply elem_of_nil in Hr.
    + intros [Hr Hq]. split; [|done].
      repeat (apply elem_of_cons in Hq as [->|Hq]; [done|]).
      by apply elem_of_nil in Hq.
  - intros _ Hv. rewrite Hv. split; intros [? _]; done.
Qed.

Lemma router_partition_witness :
  (resultado (maria_2, marta) ∉ df_ingestao tabela)
  ∧ (resultado (maria_2, marta) ∉ df_log tabela).
Proof.
  apply (proj2 (proj2 (router_partition tabela (resultado (maria_2, marta))))).
  - apply list_elem_of_fmap_2. apply elem_of_df_joined.
    split_and!; [set_solver|set_solver|by exists "111"|done|done].
  - vm_compute. reflexivity.
Defined.

Lemma cpfs_duplicados_spec (df : list Registro) (k : option string) :
  k ∈ cpfs_duplicados df ↔ ∃ a b, (a, b) ∈ df_joined df ∧ cpf a = k.
Proof.
  unfold cpfs_duplicados, df_resultado.
  rewrite elem_of_remove_dups, list_elem_of_fmap. split.
  - intros (row & -> & ([a b] & -> & Hab)%list_elem_of_fmap).
    by exists a, b.
  - intros (a & b & Hab & <-).
    exists (resultado (a, b)). split; [done|].
    by apply list_elem_of_fmap_2.
Qed.

(** The anti-join keeps a record, as it is, when its key is null or is the
    key of no pair. *)
Lemma df_unicos_spec (df : list Registro) (r : Registro) :
  r ∈ df_unicos df ↔
  r ∈ df ∧ ∀ a b, (a, b) ∈ df_joined df → cpf r = None ∨ cpf a ≠ cpf r.
Proof.
  unfold df_unicos. rewrite list_elem_of_filter, Forall_forall.
  split; intros [H1 H2]; split; try done.
  - intros a b Hab. destruct (cpf r) as [k|] eqn:Hk; [right|by left].
    intros Ha.
    specialize (H1 (Some k)). rewrite cpfs_duplicados_spec in H1.
    assert (holds (sql_eq (Some k) (Some k)) = false) as Hf.
    { apply H1. by exists a, b. }
    simpl in Hf. by rewrite String.eqb_refl in Hf.
  - intros k (a & b & Hab & <-)%cpfs_duplicados_spec.
    destruct (holds (sql_eq (cpf r) (cpf a))) eqn:He; [|done].
    apply holds_sql_eq in He as (k & Hr & Ha).
    destruct (H2 a b Hab); congruence.
Qed.

(** A record that the anti-join keeps is in no pair: so in no row of the
    result, of the log or of the pairs to ingest. *)
Lemma df_unicos_not_paired (df : list Registro) (r a b : Registro) :
  r ∈ df_unicos df → (a, b) ∈ df_joined df → a ≠ r ∧ b ≠ r.
Proof.
  intros [_ Hr]%df_unicos_spec Hab.
  pose proof Hab as (_ & _ & (k & Ha & Hb) & _)%elem_of_df_joined.
  destruct (Hr a b Hab) as [Hn|Hn].
  - split; intros ->; congruence.
  - split; intros ->; congruence.
Qed.

Lemma columns_differ (outras : list string) :
  same_columns Resultado.columns (df_columns outras) = false.
Proof.
  unfold same_columns. apply andb_false_iff. right.
  apply bool_decide_eq_false. intros Hsub.
  assert ("id" ∈ Resultado.columns) as Hid.
  { apply Hsub. unfold df_columns. set_solver. }
  unfold Resultado.columns in Hid.
  repeat (apply elem_of_cons in Hid as [Hid|Hid]; [discriminate Hid|]).
  by apply elem_of_nil in Hid.
Qed.

(** C9 (code defect). The union that is to add the records without
    conflicting pair to the ingestion set fails for every table: the rows of
    the result have the columns id_a, id_b, cpf, score_final, status_final,
    the table has a column id, and [unionByName] is not told to allow
    missing columns. *)
Theorem df_ingestao_final_raises (outras : list string) (df : list Registro) :
  df_ingestao_final outras df = Raise AnalysisException.
Proof.
  unfold df_ingestao_final, unionByName. by rewrite columns_differ.
Qed.

(** ** Signature builder *)

Lemma extract_first_last_no_token (nome : string) :
  split (strip nome) = [] → extract_first_last nome = Raise IndexError.
Proof. unfold extract_first_last. by intros ->. Qed.

Lemma extract_first_last_one_token (nome tok : string) :
  split (strip nome) = [tok] →
  extract_first_last nome = Ok (tok, Tuple2 tok tok).
Proof. unfold extract_first_last. by intros ->. Qed.

Lemma item_last (l : list string) (x y : string) :
  item (x :: l ++ [y]) (-1) = Ok y.
Proof.
  unfold item.
  assert (length (x :: l ++ [y]) = S (S (length l))) as ->
    by (simpl; rewrite length_app; simpl; lia).
  change (-1 <? 0)%Z with true. cbv iota.
  replace (-1 + Z.of_nat (S (S (length l))))%Z
    with (Z.of_nat (S (length l))) by lia.
  assert ((0 <=? Z.of_nat (S (length l)))%Z
          && (Z.of_nat (S (length l)) <? Z.of_nat (S (S (length l))))%Z
          = true) as ->
    by (apply andb_true_iff; split; [apply Z.leb_le|apply Z.ltb_lt]; lia).
  rewrite Nat2Z.id. simpl. rewrite lookup_app_r by lia.
  by rewrite Nat.sub_diag.
Qed.

(** With two tokens or more the pair is the first token and the last. *)
Lemma extract_first_last_tokens (nome x y : string) (l : list string) :
  split (strip nome) = x :: l ++ [y] →
  extract_first_last nome = Ok (x, Str y).
Proof.
  unfold extract_first_last. intros ->.
  replace (1 <? length (x :: l ++ [y]))%nat with true
    by (symmetry; apply Nat.ltb_lt; simpl; rewrite length_app; simpl; lia).
  by rewrite item_last.
Qed.

Lemma gerar_assinatura_empty_name (nome_aluno data_nasc nome_mae sexo : option string) :
  normalize_nome (default "" nome_aluno) = "" →
  gerar_assinatura nome_aluno data_nasc nome_mae sexo = Raise IndexError.
Proof. unfold gerar_assinatura. by intros ->. Qed.

(** C1 (code defect). The signature of a record without name is not a
    string: the builder raises IndexError, since the normalized name has no
    first token. *)
Theorem gerar_assinatura_absent_name :
  gerar_assinatura None (Some "2001-02-03") (Some "Ana Lima") (Some "F")
  = Raise IndexError
  ∧ gerar_assinatura (Some "Ana Lima") (Some "2001-02-03") (Some " de ") (Some "F")
    = Raise IndexError.
Proof. split; vm_compute; reflexivity. Qed.

(** C2 (code defect). For a name of one token the second component that
    [extract_first_last] returns is the pair of the token with itself, and
    the signature has the text of that pair where the last token belongs. *)
Theorem one_token_signature :
  extract_first_last "maria" = Ok ("maria", Tuple2 "maria" "maria")
  ∧ gerar_assinatura (Some "Maria") (Some "2001-02-03") (Some "Ana") (Some "F")
    = Ok "maria ('maria', 'maria') 2001-02-03 ana ('ana', 'ana') F".
Proof. split; vm_compute; reflexivity. Qed.

Example two_token_signature :
  gerar_assinatura (Some "Maria da Silva") (Some "2001-02-03")
                   (Some "Ana de Souza Lima") (Some "F")
  = Ok "maria silva 2001-02-03 ana lima F".
Proof. vm_compute. reflexivity. Qed.

(** ** Similarity scorer *)

Lemma len_max_zero (a b : string) :
  len_max a b = 0%nat ↔ a = "" ∧ b = "".
Proof.
  unfold len_max. destruct a, b; simpl; try done.
  - split; [done|]. by intros [_ ?].
  - split; [done|]. by intros [? _].
  - case_match; split; try done; intros [? _]; done.
Qed.

Lemma of_nat_zero (n : nat) : Qeq_bool (of_nat n) 0 = bool_decide (n = 0%nat).
Proof.
  destruct n; [done|]. by rewrite bool_decide_eq_false_2.
Qed.

Lemma lev_score_value (a b : string) :
  (len_max a b = 0%nat ∧ a = "" ∧ b = "" ∧ lev_score a b = None) ∨
  ((0 < len_max a b)%nat ∧
   lev_score a b
   = Some (1 - of_nat (levenshtein a b) / of_nat (len_max a b))%Q).
Proof.
  unfold lev_score, lev_dist, sql_div. rewrite of_nat_zero.
  case_bool_decide as Hz.
  - left. pose proof (proj1 (len_max_zero a b) Hz) as [-> ->]. done.
  - right. split; [lia|done].
Qed.



Lemma row_bounded_hd (n : nat) (t : string) (row : list nat) :
  row_bounded n t row → (hd 0%nat row ≤ Nat.max n (String.length t))%nat.
Proof.
  destruct t, row as [|x [|y r]]; simpl; try done; try lia.
Qed.

Lemma row_bounded_tail (n : nat) (c : ascii) (t : string) (row : list nat) :
  row_bounded n (String c t) row → row_bounded n t (tail row).
Proof. destruct row; simpl; [done|]. by intros [_ ?]. Qed.

Lemma first_row_bounded (t : string) : row_bounded 0 t (first_row t).
Proof. induction t; simpl; [lia|]. split; [lia|done]. Qed.

Lemma next_row_bounded (a : ascii) (n : nat) (t : string) (prev : list nat) :
  row_bounded n t prev → row_bounded (S n) t (next_row a (S n) t prev).
Proof.
  revert prev. induction t as [|b t IH]; intros prev Hprev.
  - simpl. lia.
  - pose proof (row_bounded_tail _ _ _ _ Hprev) as Htail.
    pose proof (row_bounded_hd _ _ _ Htail) as Hdiag.
    cbn [next_row row_bounded]. split; [|by apply IH].
    cbn [String.length]. destruct (Ascii.eqb a b); lia.
Qed.

Lemma lev_row_bounded (s t : string) :
  row_bounded (String.length s) t (lev_row s t).
Proof.
  induction s as [|a s IH]; simpl.
  - apply first_row_bounded.
  - by apply next_row_bounded.
Qed.

Lemma levenshtein_le_len_max (s t : string) :
  (levenshtein s t ≤ len_max s t)%nat.
Proof.
  pose proof (row_bounded_hd _ _ _ (lev_row_bounded s t)) as H.
  unfold levenshtein, len_max. case_match eqn:E.
  - apply Nat.ltb_lt in E. lia.
  - apply Nat.ltb_ge in E. lia.
Qed.

Lemma of_nat_ratio (m n : nat) :
  (m ≤ n)%nat → (0 < n)%nat → (0 <= of_nat m / of_nat n <= 1)%Q.
Proof.
  intros Hmn Hn.
  assert (0 < of_nat n)%Q as Hpos.
  { unfold of_nat. rewrite <- (Zlt_Qlt 0). lia. }
  split.
  - apply Qle_shift_div_l; [done|]. rewrite Qmult_0_l.
    unfold of_nat. rewrite <- (Zle_Qle 0). lia.
  - apply Qle_shift_div_r; [done|]. rewrite Qmult_1_l.
    unfold of_nat. rewrite <- Zle_Qle. lia.
Qed.

Lemma jaccard_udf_bounds (str1 str2 : string) :
  (0 <= jaccard_udf str1 str2 <= 1)%Q.
Proof.
  unfold jaccard_udf. case_decide as Hu; [|lra].
  apply of_nat_ratio; [|lia].
  apply subseteq_size. intros x [Hx _]%elem_of_intersection.
  apply elem_of_union. by left.
Qed.

Lemma lev_score_bounds (a b : string) :
  (0 < len_max a b)%nat →
  ∃ l, lev_score a b = Some l ∧ (0 <= l <= 1)%Q.
Proof.
  intros Hlen. destruct (lev_score_value a b) as [[Hz _]|[_ ->]]; [lia|].
  eexists. split; [done|].
  pose proof (of_nat_ratio _ _ (levenshtein_le_len_max a b) Hlen). lra.
Qed.

Lemma score_final_value (a b : string) :
  (0 < len_max a b)%nat →
  ∃ l, lev_score a b = Some l ∧
       score_final a b
       = Some ((75 # 100) * jaccard_udf a b + (25 # 100) * l)%Q ∧
       (0 <= (75 # 100) * jaccard_udf a b + (25 # 100) * l <= 1)%Q.
Proof.
  intros Hlen. destruct (lev_score_bounds a b Hlen) as (l & Hl & Hb).
  exists l. split; [done|]. unfold score_final. rewrite Hl. split; [done|].
  pose proof (jaccard_udf_bounds a b). lra.
Qed.

(** ** The float columns *)

Module FloatFacts.
Import Float.






















(** The columns of two pairs, digit for digit: 0.7142857313156128,
    0.9696969696969697 and 0.778138540910952 for the first pair of the
    table, and a score of 0.7499999850988388, just below the threshold of
    OK, for five shared tokens out of six. *)
Example float_columns :
  jaccard (assinatura maria_1) (assinatura maria_2)
  = Some (5991863 # 8388608)%Q
  ∧ lev_score (assinatura maria_1) (assinatura maria_2)
    = Some (1091781727847393 # 1125899906842624)%Q
  ∧ score_final (assinatura maria_1) (assinatura maria_2)
    = Some (3504424442889185 # 4503599627370496)%Q
  ∧ score_final "a b c d e" "a b c d e ffffffff"
    = Some (50331647 # 67108864)%Q.
Proof. split_and!; vm_compute; reflexivity. Qed.

(** Beyond 2^24 the cast of a distance can exceed the length it is divided
    by: 16777219 becomes 16777220, and the [lev_score] of a distance and a
    length of 16777219 is below 0. *)
Example single_above_2_24 :
  single (inject_Z 16777219) = inject_Z 16777220
  ∧ (double (1 - double (single (inject_Z 16777219) / inject_Z 16777219))
     < 0)%Q.
Proof. split; vm_compute; reflexivity. Qed.

End FloatFacts.

(** Every row of the result has a score, between 0 and 1. *)
Lemma df_resultado_score (df : list Registro) (row : Resultado.t) :
  row ∈ df_resultado df →
  ∃ q, Resultado.score_final row = Some q ∧ (0 <= q <= 1)%Q.
Proof.
  intros ([a b] & -> & (_ & _ & _ & _ & Hne)%elem_of_df_joined)%list_elem_of_fmap.
  simpl in *.
  destruct (score_final_value (assinatura a) (assinatura b))
    as (l & _ & -> & Hb); [|by eexists].
  destruct (len_max (assinatura a) (assinatura b)) eqn:Hz; [|lia].
  apply len_max_zero in Hz as [? ?]. congruence.
Qed.

(** ** Normalizer *)

Lemma space_not_word (c : ascii) :
  Char.is_space c = true → Char.is_word c = false.
Proof. destruct c as [[] [] [] [] [] [] [] []]; vm_compute; congruence. Qed.

Lemma lower_lower (c : ascii) : Char.lower (Char.lower c) = Char.lower c.
Proof. destruct c as [[] [] [] [] [] [] [] []]; vm_compute; reflexivity. Qed.

Lemma starts_word_prefix (s : string) :
  starts_word (word_prefix s) = starts_word s.
Proof. destruct s as [|c r]; simpl; [done|]. by destruct (Char.is_word c) eqn:E; simpl. Qed.

Lemma ends_word_all_word (p : bool) (c : ascii) (alt : string) :
  all_word (String c alt) = true → ends_word p (String c alt) = true.
Proof.
  revert p c. induction alt as [|d alt IH]; intros p c; simpl.
  - by rewrite andb_true_r.
  - intros [_ H]%andb_true_iff. by apply (IH (Char.is_word c) d).
Qed.

Lemma strip_prefix_word_prefix (alt s : string) :
  all_word alt = true →
  match strip_prefix alt s with
  | Some r => negb (starts_word r)
  | None => false
  end = String.eqb (word_prefix s) alt.
Proof.
  revert s. induction alt as [|a alt IH]; intros s Hall.
  - destruct s as [|c r]; simpl; [done|]. by destruct (Char.is_word c).
  - apply andb_true_iff in Hall as [Ha Hall].
    destruct s as [|b s]; [done|]. simpl.
    destruct (Ascii.eqb_spec a b) as [<-|Hne].
    + rewrite Ha. simpl. rewrite Ascii.eqb_refl. by apply IH.
    + destruct (Char.is_word b); [|done]. simpl.
      destruct (Ascii.eqb_spec b a); [congruence|done].
Qed.

Lemma match_alt_spec (p : bool) (alt s : string) :
  all_word alt = true → alt ≠ "" →
  match_alt p alt s
  = if String.eqb (word_prefix s) alt then Some (String.length alt) else None.
Proof.
  intros Hall Hne. unfold match_alt.
  rewrite <- (strip_prefix_word_prefix alt s Hall).
  destruct alt as [|c alt]; [done|].
  rewrite (ends_word_all_word p c alt Hall).
  destruct (strip_prefix _ _); [|done]. unfold word_boundary. simpl.
  by destruct (starts_word _).
Qed.

(** A match at a position is the whole run of word characters that starts
    there, when nothing of a word comes before and the run is one of the
    connectives. *)
Lemma match_conectivo_spec (p : bool) (s : string) :
  match_conectivo p s
  = if negb p && is_conectivo (word_prefix s)
    then Some (String.length (word_prefix s)) else None.
Proof.
  unfold match_conectivo, word_boundary, is_conectivo, conectivos, match_alts.
  rewrite !match_alt_spec by done.
  rewrite <- starts_word_prefix. generalize (word_prefix s). intros w.
  simpl existsb.
  destruct (String.eqb_spec w "de") as [->|_]; [by destruct p|].
  destruct (String.eqb_spec w "da") as [->|_]; [by destruct p|].
  destruct (String.eqb_spec w "do") as [->|_]; [by destruct p|].
  destruct (String.eqb_spec w "das") as [->|_]; [by destruct p|].
  destruct (String.eqb_spec w "dos") as [->|_]; [by destruct p|].
  simpl. rewrite andb_false_r. by destruct (xorb _ _).
Qed.

Lemma match_conectivo_word_prefix (p : bool) (s s' : string) :
  word_prefix s = word_prefix s' → match_conectivo p s = match_conectivo p s'.
Proof. intros H. by rewrite !match_conectivo_spec, H. Qed.

Lemma match_conectivo_inside_word (s : string) : match_conectivo true s = None.
Proof. by rewrite match_conectivo_spec. Qed.

Lemma match_conectivo_not_word (p : bool) (s : string) :
  starts_word s = false → match_conectivo p s = None.
Proof.
  intros H. rewrite match_conectivo_spec.
  destruct s as [|c r]; simpl in *; [|rewrite H]; by rewrite andb_false_r.
Qed.

Lemma match_conectivo_Some (p : bool) (c : ascii) (r : string) (n : nat) :
  match_conectivo p (String c r) = Some n →
  p = false ∧ Char.is_word c = true ∧ String.length (word_prefix r) = pred n.
Proof.
  rewrite match_conectivo_spec. simpl.
  destruct p; [done|]. destruct (Char.is_word c); [|done]. simpl.
  destruct (is_conectivo _); [|done]. intros [= <-]. done.
Qed.

(** Inside a word the scan copies up to the end of the word. *)
Lemma word_prefix_sub_conectivos (s : string) :
  word_prefix (sub_conectivos_from 0 true s) = word_prefix s.
Proof.
  induction s as [|c r IH]; [done|].
  cbn [sub_conectivos_from]. rewrite match_conectivo_inside_word. simpl.
  destruct (Char.is_word c); [|done]. by rewrite IH.
Qed.

Lemma no_match_fixed (p : bool) (s : string) :
  no_match p s → sub_conectivos_from 0 p s = s.
Proof.
  revert p. induction s as [|c r IH]; intros p; [done|].
  intros [Hm Hr]. cbn [sub_conectivos_from]. rewrite Hm. by rewrite IH.
Qed.

(** What the scan writes has no match left: from a position outside a
    match, and from one with [k] characters of a match still to drop. *)
Lemma no_match_sub_conectivos_from (s : string) :
  (∀ p, no_match p (sub_conectivos_from 0 p s)) ∧
  (∀ k pw, String.length (word_prefix s) = k →
           no_match false (sub_conectivos_from k pw s)).
Proof.
  induction s as [|c r [IH1 IH2]]; [done|]. split.
  - intros p. cbn [sub_conectivos_from].
    destruct (match_conectivo p (String c r)) as [n|] eqn:Hm.
    + apply match_conectivo_Some in Hm as (-> & _ & Hlen). by apply IH2.
    + split; [|apply IH1].
      rewrite <- Hm. apply match_conectivo_word_prefix. simpl.
      destruct (Char.is_word c); [|done].
      by rewrite word_prefix_sub_conectivos.
  - intros k pw Hlen. simpl in Hlen.
    destruct (Char.is_word c) eqn:Hc.
    + destruct k as [|k]; [done|]. simpl in Hlen.
      cbn [sub_conectivos_from]. rewrite Hc. apply IH2. lia.
    + destruct k as [|k]; [|done]. cbn [sub_conectivos_from].
      rewrite match_conectivo_not_word by done. split.
      * apply match_conectivo_not_word. done.
      * rewrite Hc. apply IH1.
Qed.

Lemma no_match_sub_conectivos (s : string) : no_match false (sub_conectivos s).
Proof. apply (proj1 (no_match_sub_conectivos_from s)). Qed.

(** Collapsing and trimming whitespace keeps the words as they are. *)
Lemma word_prefix_sub_espacos (s : string) :
  word_prefix (sub_espacos_from false s) = word_prefix s.
Proof.
  induction s as [|c r IH]; [done|]. simpl.
  destruct (Char.is_space c) eqn:Hs.
  - by rewrite (space_not_word c Hs).
  - simpl. by rewrite IH.
Qed.

Lemma no_match_sub_espacos (b p : bool) (s : string) :
  (b = true → p = false) → no_match p s → no_match p (sub_espacos_from b s).
Proof.
  revert b p. induction s as [|c r IH]; intros b p Hb; [done|].
  intros [Hm Hr]. simpl. destruct (Char.is_space c) eqn:Hs.
  - rewrite (space_not_word c Hs) in Hr. destruct b.
    + rewrite Hb by done. by apply IH.
    + split; [by apply match_conectivo_not_word|]. by apply IH.
  - split; [|by apply IH].
    rewrite <- Hm. apply match_conectivo_word_prefix. simpl.
    by rewrite word_prefix_sub_espacos.
Qed.

Lemma no_match_lstrip (s : string) :
  no_match false s → no_match false (lstrip s).
Proof.
  induction s as [|c r IH]; [done|]. intros [Hm Hr]. simpl.
  destruct (Char.is_space c) eqn:Hs; [|done].
  rewrite (space_not_word c Hs) in Hr. by apply IH.
Qed.

Lemma rstrip_cons (c : ascii) (r : string) :
  rstrip (String c r)
  = if String.eqb (rstrip r) "" && Char.is_space c then ""
    else String c (rstrip r).
Proof. simpl. destruct (rstrip r); simpl; [|done]. by destruct (Char.is_space c). Qed.

Lemma word_prefix_rstrip (s : string) : word_prefix (rstrip s) = word_prefix s.
Proof.
  induction s as [|c r IH]; [done|]. rewrite rstrip_cons.
  destruct (String.eqb_spec (rstrip r) "") as [He|_]; simpl.
  - rewrite He in IH. destruct (Char.is_space c) eqn:Hs.
    + by rewrite (space_not_word c Hs).
    + simpl. rewrite He. simpl. by rewrite <- IH.
  - by rewrite IH.
Qed.

Lemma no_match_rstrip (p : bool) (s : string) :
  no_match p s → no_match p (rstrip s).
Proof.
  revert p. induction s as [|c r IH]; intros p; [done|].
  intros [Hm Hr]. rewrite rstrip_cons.
  destruct (_ && _); [done|]. split; [|by apply IH].
  rewrite <- Hm. apply match_conectivo_word_prefix. simpl.
  by rewrite word_prefix_rstrip.
Qed.

(** The three other marks of a normalized name: lower case, whitespace
    collapsed, nothing to trim. *)
Lemma is_lower_lower (s : string) : is_lower (lower s).
Proof. induction s; simpl; [done|]. split; [apply lower_lower|done]. Qed.

Lemma is_lower_fixed (s : string) : is_lower s → lower s = s.
Proof. induction s as [|c r IH]; [done|]. intros [Hc Hr]. simpl. by rewrite Hc, IH. Qed.

Lemma is_lower_sub_conectivos (k : nat) (p : bool) (s : string) :
  is_lower s → is_lower (sub_conectivos_from k p s).
Proof.
  revert k p. induction s as [|c r IH]; intros k p; [done|].
  intros [Hc Hr]. cbn [sub_conectivos_from].
  destruct k; [|by apply IH].
  destruct (match_conectivo _ _); [by apply IH|]. split; [done|by apply IH].
Qed.

Lemma is_lower_sub_espacos (b : bool) (s : string) :
  is_lower s → is_lower (sub_espacos_from b s).
Proof.
  revert b. induction s as [|c r IH]; intros b; [done|].
  intros [Hc Hr]. simpl. destruct (Char.is_space c).
  - destruct b; [by apply IH|]. split; [done|by apply IH].
  - split; [done|by apply IH].
Qed.

Lemma is_lower_lstrip (s : string) : is_lower s → is_lower (lstrip s).
Proof.
  induction s as [|c r IH]; [done|]. intros [Hc Hr]. simpl.
  destruct (Char.is_space c); [by apply IH|done].
Qed.

Lemma is_lower_rstrip (s : string) : is_lower s → is_lower (rstrip s).
Proof.
  induction s as [|c r IH]; [done|]. intros [Hc Hr]. rewrite rstrip_cons.
  destruct (_ && _); [done|]. split; [done|by apply IH].
Qed.

Lemma collapsed_sub_espacos (b : bool) (s : string) :
  collapsed b (sub_espacos_from b s).
Proof.
  revert b. induction s as [|c r IH]; intros b; [done|]. simpl.
  destruct (Char.is_space c) eqn:Hs.
  - destruct b; [apply IH|]. simpl. split_and!; [done|done|apply IH].
  - simpl. rewrite Hs. apply IH.
Qed.

Lemma collapsed_fixed (b : bool) (s : string) :
  collapsed b s → sub_espacos_from b s = s.
Proof.
  revert b. induction s as [|c r IH]; intros b; [done|]. simpl.
  destruct (Char.is_space c).
  - intros (-> & -> & Hr). by rewrite IH.
  - intros Hr. by rewrite IH.
Qed.

Lemma collapsed_weaken (b : bool) (s : string) :
  collapsed b s → collapsed false s.
Proof.
  destruct s as [|c r]; [done|]. simpl. destruct (Char.is_space c); [|done].
  by intros (_ & ? & ?).
Qed.

Lemma collapsed_lstrip (s : string) :
  collapsed false s → collapsed false (lstrip s).
Proof.
  destruct s as [|c r]; [done|]. simpl.
  destruct (Char.is_space c) eqn:Hs.
  - intros (_ & _ & Hr). destruct r as [|d r]; [done|]. simpl in *.
    destruct (Char.is_space d) eqn:Hd; [by destruct Hr|].
    simpl. by rewrite Hd.
  - intros Hr. simpl. by rewrite Hs.
Qed.

Lemma collapsed_rstrip (b : bool) (s : string) :
  collapsed b s → collapsed b (rstrip s).
Proof.
  revert b. induction s as [|c r IH]; intros b; [done|].
  rewrite rstrip_cons. destruct (_ && _); [done|]. simpl.
  destruct (Char.is_space c).
  - intros (? & ? & Hr). split_and!; [done|done|by apply IH].
  - by apply IH.
Qed.

Lemma starts_space_lstrip (s : string) : starts_space (lstrip s) = false.
Proof.
  induction s as [|c r IH]; [done|]. simpl.
  destruct (Char.is_space c) eqn:Hs; [done|]. simpl. done.
Qed.

Lemma starts_space_rstrip (s : string) :
  starts_space s = false → starts_space (rstrip s) = false.
Proof.
  destruct s as [|c r]; [done|]. simpl. intros Hs. rewrite Hs.
  by destruct (rstrip r).
Qed.

Lemma lstrip_fixed (s : string) : starts_space s = false → lstrip s = s.
Proof. destruct s as [|c r]; [done|]. simpl. by intros ->. Qed.

Lemma rstrip_rstrip (s : string) : rstrip (rstrip s) = rstrip s.
Proof.
  induction s as [|c r IH]; [done|]. rewrite rstrip_cons.
  destruct (_ && _) eqn:E; [done|]. rewrite rstrip_cons, IH. by rewrite E.
Qed.

Lemma strip_strip (s : string) : strip (strip s) = strip s.
Proof.
  unfold strip.
  rewrite (lstrip_fixed (rstrip (lstrip s))).
  - apply rstrip_rstrip.
  - apply starts_space_rstrip, starts_space_lstrip.
Qed.

(** C8. The normalizer is idempotent. *)
Theorem normalize_nome_idempotent (x : string) :
  normalize_nome (normalize_nome x) = normalize_nome x.
Proof.
  set (y := normalize_nome x).
  assert (is_lower y) as Hlow.
  { apply is_lower_rstrip, is_lower_lstrip, is_lower_sub_espacos,
      is_lower_sub_conectivos, is_lower_lower. }
  assert (no_match false y) as Hnm.
  { apply no_match_rstrip, no_match_lstrip, no_match_sub_espacos; [done|].
    apply no_match_sub_conectivos. }
  assert (collapsed false y) as Hcol.
  { apply collapsed_rstrip, collapsed_lstrip, collapsed_sub_espacos. }
  unfold normalize_nome at 1.
  rewrite (is_lower_fixed y Hlow).
  unfold sub_conectivos. rewrite (no_match_fixed false y Hnm).
  unfold sub_espacos. rewrite (collapsed_fixed false y Hcol).
  apply strip_strip.
Qed.

(** * Further properties *)

(** ** Normalizer: the shape of a normalized name *)

Lemma normalize_nome_is_lower (x : string) : is_lower (normalize_nome x).
Proof.
  apply is_lower_rstrip, is_lower_lstrip, is_lower_sub_espacos,
    is_lower_sub_conectivos, is_lower_lower.
Qed.

Lemma normalize_nome_no_match (x : string) : no_match false (normalize_nome x).
Proof.
  apply no_match_rstrip, no_match_lstrip, no_match_sub_espacos; [done|].
  apply no_match_sub_conectivos.
Qed.

Lemma normalize_nome_collapsed (x : string) : collapsed false (normalize_nome x).
Proof. apply collapsed_rstrip, collapsed_lstrip, collapsed_sub_espacos. Qed.

Lemma normalize_nome_starts (x : string) :
  starts_space (normalize_nome x) = false.
Proof. apply starts_space_rstrip, starts_space_lstrip. Qed.

(** X1. Each step of the normalizer leaves a normalized name as it is: the
    name is in lower case, has no connective left as a word, has no
    whitespace but single spaces, and has nothing to trim at either end. *)
Theorem normalize_nome_normal_form (x : string) :
  lower (normalize_nome x) = normalize_nome x
  ∧ sub_conectivos (normalize_nome x) = normalize_nome x
  ∧ sub_espacos (normalize_nome x) = normalize_nome x
  ∧ lstrip (normalize_nome x) = normalize_nome x
  ∧ rstrip (normalize_nome x) = normalize_nome x.
Proof.
  split_and!.
  - apply is_lower_fixed, normalize_nome_is_lower.
  - apply no_match_fixed, normalize_nome_no_match.
  - apply collapsed_fixed, normalize_nome_collapsed.
  - apply lstrip_fixed, normalize_nome_starts.
  - unfold normalize_nome, strip. apply rstrip_rstrip.
Qed.

Lemma normalize_nome_twice (x : string) :
  normalize_nome (normalize_nome x) = normalize_nome x.
Proof.
  unfold normalize_nome at 1.
  rewrite (is_lower_fixed _ (normalize_nome_is_lower x)).
  unfold sub_conectivos.
  rewrite (no_match_fixed _ _ (normalize_nome_no_match x)).
  unfold sub_espacos.
  rewrite (collapsed_fixed _ _ (normalize_nome_collapsed x)).
  apply strip_strip.
Qed.

Lemma length_lower (s : string) : String.length (lower s) = String.length s.
Proof. induction s; simpl; [done|]. by rewrite IHs. Qed.

Lemma length_sub_conectivos (k : nat) (p : bool) (s : string) :
  (String.length (sub_conectivos_from k p s) ≤ String.length s)%nat.
Proof.
  revert k p. induction s as [|c r IH]; intros k p; [done|].
  cbn [sub_conectivos_from String.length]. destruct k as [|k].
  - destruct (match_conectivo _ _) as [n|].
    + specialize (IH (pred n) (Char.is_word c)). lia.
    + cbn [String.length]. specialize (IH 0%nat (Char.is_word c)). lia.
  - specialize (IH k (Char.is_word c)). lia.
Qed.

Lemma length_sub_espacos (b : bool) (s : string) :
  (String.length (sub_espacos_from b s) ≤ String.length s)%nat.
Proof.
  revert b. induction s as [|c r IH]; intros b; [done|]. simpl.
  destruct (Char.is_space c).
  - destruct b; simpl; [specialize (IH true)|specialize (IH true)]; lia.
  - simpl. specialize (IH false). lia.
Qed.

Lemma length_lstrip (s : string) :
  (String.length (lstrip s) ≤ String.length s)%nat.
Proof.
  induction s as [|c r IH]; [done|]. simpl.
  destruct (Char.is_space c); simpl; lia.
Qed.

Lemma length_rstrip (s : string) :
  (String.length (rstrip s) ≤ String.length s)%nat.
Proof.
  induction s as [|c r IH]; [done|]. rewrite rstrip_cons.
  destruct (_ && _); simpl; lia.
Qed.

(** X2. The normalizer never makes a name of code points below 256, the
    characters of this model, longer: on them [str.lower] gives one
    character for one. *)
Theorem normalize_nome_length (x : string) :
  (String.length (normalize_nome x) ≤ String.length x)%nat.
Proof.
  unfold normalize_nome, strip, sub_espacos, sub_conectivos.
  pose proof (length_rstrip (lstrip (sub_espacos_from false
                (sub_conectivos_from 0 false (lower x))))).
  pose proof (length_lstrip (sub_espacos_from false
                (sub_conectivos_from 0 false (lower x)))).
  pose proof (length_sub_espacos false (sub_conectivos_from 0 false (lower x))).
  pose proof (length_sub_conectivos 0 false (lower x)).
  pose proof (length_lower x). lia.
Qed.

(** ** Normalizer: one word, and no word at all *)

Lemma is_word_lower (c : ascii) : Char.is_word (Char.lower c) = Char.is_word c.
Proof. destruct c as [[] [] [] [] [] [] [] []]; vm_compute; reflexivity. Qed.

Lemma lower_space (c : ascii) : Char.is_space c = true → Char.lower c = c.
Proof. destruct c as [[] [] [] [] [] [] [] []]; vm_compute; congruence. Qed.

Lemma word_not_space (c : ascii) :
  Char.is_word c = true → Char.is_space c = false.
Proof.
  intros Hw. destruct (Char.is_space c) eqn:Hs; [|done].
  apply space_not_word in Hs. congruence.
Qed.

Lemma all_word_lower (s : string) : all_word (lower s) = all_word s.
Proof. induction s; simpl; [done|]. by rewrite is_word_lower, IHs. Qed.

Lemma word_prefix_all_word (s : string) :
  all_word s = true → word_prefix s = s.
Proof.
  induction s as [|c r IH]; [done|]. simpl.
  intros [-> Hr]%andb_true_iff. by rewrite IH.
Qed.

Lemma sub_conectivos_skip_all (k : nat) (p : bool) (s : string) :
  (String.length s ≤ k)%nat → sub_conectivos_from k p s = "".
Proof.
  revert k p. induction s as [|c r IH]; intros k p; [done|].
  cbn [String.length sub_conectivos_from]. intros Hk.
  destruct k as [|k]; [lia|]. apply IH. lia.
Qed.

Lemma sub_conectivos_inside_word (s : string) :
  sub_conectivos_from 0 true s = s ∨ ¬ all_word s = true.
Proof.
  induction s as [|c r IH]; [by left|].
  cbn [sub_conectivos_from]. rewrite match_conectivo_inside_word. simpl.
  destruct (Char.is_word c); [|by right]. simpl.
  destruct IH as [->|?]; [by left|by right].
Qed.

Lemma sub_conectivos_word (w : string) :
  all_word w = true →
  sub_conectivos w = if is_conectivo w then "" else w.
Proof.
  destruct w as [|c r]; [done|]. intros Hall.
  unfold sub_conectivos. cbn [sub_conectivos_from].
  rewrite match_conectivo_spec, (word_prefix_all_word _ Hall).
  simpl negb. cbn [andb].
  destruct (is_conectivo (String c r)).
  - apply sub_conectivos_skip_all. simpl. lia.
  - simpl in Hall. apply andb_true_iff in Hall as [-> Hr].
    destruct (sub_conectivos_inside_word r) as [->|?]; done.
Qed.

Lemma sub_espacos_no_space (b : bool) (s : string) :
  all_word s = true → sub_espacos_from b s = s.
Proof.
  revert b. induction s as [|c r IH]; intros b; [done|]. simpl.
  intros [Hc Hr]%andb_true_iff. rewrite (word_not_space c Hc).
  by rewrite IH.
Qed.

Lemma strip_no_space (s : string) : all_word s = true → strip s = s.
Proof.
  intros Hall. unfold strip.
  assert (lstrip s = s) as ->.
  { destruct s as [|c r]; [done|]. simpl in *.
    apply andb_true_iff in Hall as [Hc _]. by rewrite (word_not_space c Hc). }
  induction s as [|c r IH]; [done|]. rewrite rstrip_cons.
  simpl in Hall. apply andb_true_iff in Hall as [Hc Hr].
  rewrite (word_not_space c Hc), andb_false_r. by rewrite IH.
Qed.

(** X3. A connective is removed only as a whole word: a name of code points
    below 256 that is one run of word characters normalizes to nothing when
    it is one of de, da, do, das, dos in any case, and to its lower case
    otherwise. *)
Theorem normalize_nome_word (w : string) :
  all_word w = true →
  normalize_nome w = if is_conectivo (lower w) then "" else lower w.
Proof.
  intros Hall. rewrite <- all_word_lower in Hall.
  unfold normalize_nome. rewrite (sub_conectivos_word _ Hall).
  destruct (is_conectivo (lower w)); [done|].
  unfold sub_espacos. rewrite (sub_espacos_no_space _ _ Hall).
  by apply strip_no_space.
Qed.

Lemma normalize_nome_word_witness :
  normalize_nome "Dedos" = "dedos" ∧ normalize_nome "DAS" = "".
Proof.
  split.
  - apply (normalize_nome_word "Dedos"). reflexivity.
  - apply (normalize_nome_word "DAS"). reflexivity.
Defined.

Lemma lower_all_space (s : string) : all_space s = true → lower s = s.
Proof.
  induction s as [|c r IH]; [done|]. simpl.
  intros [Hc Hr]%andb_true_iff. by rewrite (lower_space c Hc), IH.
Qed.

Lemma sub_conectivos_all_space (p : bool) (s : string) :
  all_space s = true → sub_conectivos_from 0 p s = s.
Proof.
  revert p. induction s as [|c r IH]; intros p; [done|].
  cbn [all_space sub_conectivos_from]. intros [Hc Hr]%andb_true_iff.
  rewrite match_conectivo_not_word by (by apply space_not_word).
  by rewrite IH.
Qed.

Lemma lstrip_sub_espacos_all_space (b : bool) (s : string) :
  all_space s = true → lstrip (sub_espacos_from b s) = "".
Proof.
  revert b. induction s as [|c r IH]; intros b; [done|]. simpl.
  intros [-> Hr]%andb_true_iff. destruct b; simpl; by apply IH.
Qed.

(** X4. A name of whitespace only normalizes to the empty string. *)
Theorem normalize_nome_blank (x : string) :
  all_space x = true → normalize_nome x = "".
Proof.
  intros Hx. unfold normalize_nome, strip, sub_espacos, sub_conectivos.
  rewrite (lower_all_space x Hx), (sub_conectivos_all_space false x Hx).
  by rewrite (lstrip_sub_espacos_all_space false x Hx).
Qed.

Lemma normalize_nome_blank_witness :
  normalize_nome (String " " (String "009" (String "160" ""))) = "".
Proof. apply normalize_nome_blank. reflexivity. Defined.

(** ** Signature builder: tokens *)

Lemma split_cons_space (c : ascii) (r : string) :
  Char.is_space c = true → split (String c r) = split r.
Proof.
  intros Hc. unfold split. simpl. destruct (split_aux r) as [w ws].
  by rewrite Hc.
Qed.

Lemma split_lstrip (s : string) : split (lstrip s) = split s.
Proof.
  induction s as [|c r IH]; [done|]. simpl.
  destruct (Char.is_space c) eqn:Hc; [|done].
  by rewrite split_cons_space.
Qed.

Lemma split_aux_rstrip (s : string) : split_aux (rstrip s) = split_aux s.
Proof.
  induction s as [|c r IH]; [done|]. rewrite rstrip_cons.
  destruct (String.eqb_spec (rstrip r) "") as [He|_]; simpl.
  - rewrite He in IH. simpl in IH. rewrite <- IH.
    destruct (Char.is_space c) eqn:Hc; simpl; [done|].
    rewrite He. simpl. by rewrite Hc.
  - by rewrite IH.
Qed.

Lemma split_strip (s : string) : split (strip s) = split s.
Proof.
  unfold strip. rewrite <- (split_lstrip s).
  unfold split. by rewrite split_aux_rstrip.
Qed.

Lemma split_aux_tokens (s : string) :
  no_space (split_aux s).1 = true
  ∧ Forall (λ t, is_token t = true) (split_aux s).2.
Proof.
  induction s as [|c r [IHw IHws]]; [done|]. simpl.
  destruct (split_aux r) as [w ws]. simpl in *.
  destruct (Char.is_space c) eqn:Hc; simpl.
  - split; [done|]. destruct w as [|d w]; [done|]. simpl.
    constructor; [|done]. unfold is_token. by rewrite IHw.
  - by rewrite Hc.
Qed.

Lemma split_tokens (s : string) : Forall (λ t, is_token t = true) (split s).
Proof.
  pose proof (split_aux_tokens s) as [Hw Hws]. unfold split.
  destruct (split_aux s) as [w ws]. simpl in *.
  destruct w as [|d w]; [done|]. simpl.
  constructor; [|done]. unfold is_token. by rewrite Hw.
Qed.

Lemma app_cons (c : ascii) (s t : string) :
  String c s +:+ t = String c (s +:+ t).
Proof. reflexivity. Qed.

Lemma app_empty (t : string) : "" +:+ t = t.
Proof. reflexivity. Qed.

Lemma length_append (s t : string) :
  String.length (s +:+ t) = (String.length s + String.length t)%nat.
Proof.
  induction s as [|c s IH]; [done|].
  rewrite app_cons. simpl. by rewrite IH.
Qed.

Lemma split_aux_token_app (a r : string) (sp : ascii) :
  no_space a = true → Char.is_space sp = true →
  split_aux (a +:+ String sp r) = (a, split r).
Proof.
  intros Ha Hsp. induction a as [|c a IH].
  - rewrite app_empty. unfold split. simpl.
    destruct (split_aux r) as [w ws]. by rewrite Hsp.
  - rewrite app_cons. simpl in *.
    apply andb_true_iff in Ha as [Hc Ha]. rewrite (IH Ha).
    by destruct (Char.is_space c).
Qed.

Lemma split_token_app (a r : string) :
  is_token a = true → split (a +:+ String " " r) = a :: split r.
Proof.
  intros [Ha Hne]%andb_true_iff. unfold split at 1.
  rewrite (split_aux_token_app a r " " Ha) by done.
  by destruct a.
Qed.

Lemma split_token (a : string) : is_token a = true → split a = [a].
Proof.
  intros [Ha Hne]%andb_true_iff. unfold split.
  assert (split_aux a = (a, [])) as ->.
  { clear Hne. induction a as [|c a IH]; [done|]. simpl in *.
    apply andb_true_iff in Ha as [Hc Ha]. rewrite (IH Ha).
    by destruct (Char.is_space c). }
  by destruct a.
Qed.

Lemma split_nonempty (s : string) :
  starts_space s = false → s ≠ "" → split s ≠ [].
Proof.
  destruct s as [|c r]; [done|]. simpl. intros Hc _.
  unfold split. simpl. destruct (split_aux r) as [w ws]. by rewrite Hc.
Qed.

Lemma split_normalize_nome (x : string) :
  split (normalize_nome x) = [] ↔ normalize_nome x = "".
Proof.
  split; [|by intros ->].
  intros Hs. destruct (String.eqb_spec (normalize_nome x) "") as [|Hne]; [done|].
  destruct (split_nonempty _ (normalize_nome_starts x) Hne Hs).
Qed.

(** ** Signature builder: first and last token *)

Lemma extract_first_last_split (nome : string) :
  extract_first_last nome
  = match split nome with
    | [] => Raise IndexError
    | [x] => Ok (x, Tuple2 x x)
    | x :: y :: l => Ok (x, Str (List.last (y :: l) x))
    end.
Proof.
  unfold extract_first_last. rewrite split_strip.
  destruct (split nome) as [|x [|y l]]; [done|done|].
  destruct (exists_last (l := y :: l)) as (l' & z & Hl); [done|].
  rewrite Hl, last_last.
  replace (1 <? length (x :: l' ++ [z]))%nat with true
    by (symmetry; apply Nat.ltb_lt; simpl; rewrite length_app; simpl; lia).
  by rewrite item_last.
Qed.

(** X5. [extract_first_last] raises IndexError exactly for a name without
    token: one that is empty or has whitespace only. *)
Theorem extract_first_last_raises_iff (nome : string) :
  extract_first_last nome = Raise IndexError ↔ split nome = [].
Proof.
  rewrite extract_first_last_split.
  destruct (split nome) as [|x [|y l]]; split; done.
Qed.

(** X6. For a name of two tokens or more, whatever the whitespace around
    and between them, [extract_first_last] returns the first token and the
    last one. *)
Theorem extract_first_last_first_last (nome x y : string) (l : list string) :
  split nome = x :: l ++ [y] →
  extract_first_last nome = Ok (x, Str y).
Proof.
  intros Hs. rewrite extract_first_last_split, Hs.
  destruct (l ++ [y]) as [|y' l2] eqn:E; [by destruct l|].
  rewrite <- E. by rewrite last_last.
Qed.

Lemma extract_first_last_first_last_witness :
  extract_first_last "  ana  de souza lima " = Ok ("ana", Str "lima").
Proof.
  apply (extract_first_last_first_last _ "ana" "lima" ["de"; "souza"]).
  vm_compute. reflexivity.
Defined.

(** ** Signature builder: the signature *)

(** X7. The signature builder raises IndexError when the name or the
    mother's name normalizes to the empty string (absent, blank, or made
    of connectives only), and returns a signature otherwise. *)
Theorem gerar_assinatura_raises_iff
    (nome_aluno data_nasc nome_mae sexo : option string) :
  (normalize_nome (default "" nome_aluno) = ""
   ∨ normalize_nome (default "" nome_mae) = "" →
   gerar_assinatura nome_aluno data_nasc nome_mae sexo = Raise IndexError)
  ∧ (normalize_nome (default "" nome_aluno) ≠ "" →
     normalize_nome (default "" nome_mae) ≠ "" →
     ∃ sig, gerar_assinatura nome_aluno data_nasc nome_mae sexo = Ok sig).
Proof.
  unfold gerar_assinatura. rewrite !extract_first_last_split.
  rewrite <- !split_normalize_nome.
  destruct (split (normalize_nome (default "" nome_aluno))) as [|x [|y l]],
    (split (normalize_nome (default "" nome_mae))) as [|x' [|y' l']];
    (split;
     [ intros [?|?]; done
     | intros Hx Hy; try (by destruct Hx); try (by destruct Hy); by eexists ]).
Qed.

Lemma gerar_assinatura_raises_iff_witness :
  gerar_assinatura (Some " De  da ") (Some "2001-02-03") (Some "Ana Lima") (Some "F")
  = Raise IndexError
  ∧ ∃ sig, gerar_assinatura (Some "Maria da Silva") (Some "2001-02-03")
                            (Some "Ana Lima") (Some "F") = Ok sig.
Proof.
  split.
  - apply (proj1 (gerar_assinatura_raises_iff (Some " De  da ")
                    (Some "2001-02-03") (Some "Ana Lima") (Some "F"))).
    left. vm_compute. reflexivity.
  - apply (proj2 (gerar_assinatura_raises_iff (Some "Maria da Silva")
                    (Some "2001-02-03") (Some "Ana Lima") (Some "F")));
      vm_compute; discriminate.
Defined.

Lemma gerar_assinatura_tokens
    (nome_aluno data_nasc nome_mae sexo : option string)
    (x y x' y' : string) (l l' : list string) :
  split (normalize_nome (default "" nome_aluno)) = x :: l ++ [y] →
  split (normalize_nome (default "" nome_mae)) = x' :: l' ++ [y'] →
  gerar_assinatura nome_aluno data_nasc nome_mae sexo
  = Ok (x +:+ " " +:+ y +:+ " " +:+ format_arg data_nasc +:+ " "
        +:+ x' +:+ " " +:+ y' +:+ " " +:+ format_arg sexo).
Proof.
  intros Ha Hm. unfold gerar_assinatura.
  rewrite !extract_first_last_split, Ha, Hm.
  destruct (l ++ [y]) as [|y1 l1] eqn:E; [by destruct l|].
  destruct (l' ++ [y']) as [|y2 l2] eqn:E'; [by destruct l'|].
  rewrite <- E, <- E', !last_last. done.
Qed.

(** X8. When the normalized name and the normalized mother's name have two
    tokens or more each, the signature is the first and last token of the
    name, the birth date, the first and last token of the mother's name and
    the sex, in this order, with one space between them. *)
Theorem gerar_assinatura_six_fields
    (nome_aluno data_nasc nome_mae sexo : option string)
    (x y x' y' : string) (l l' : list string) :
  split (normalize_nome (default "" nome_aluno)) = x :: l ++ [y] →
  split (normalize_nome (default "" nome_mae)) = x' :: l' ++ [y'] →
  gerar_assinatura nome_aluno data_nasc nome_mae sexo
  = Ok (x +:+ " " +:+ y +:+ " " +:+ format_arg data_nasc +:+ " "
        +:+ x' +:+ " " +:+ y' +:+ " " +:+ format_arg sexo).
Proof.
  intros Ha Hm.
  pose proof (extract_first_last_split (normalize_nome (default "" nome_aluno)))
    as Ea.
  pose proof (extract_first_last_split (normalize_nome (default "" nome_mae)))
    as Em.
  rewrite Ha in Ea. rewrite Hm in Em.
  assert (extract_first_last (normalize_nome (default "" nome_aluno))
          = Ok (x, Str y)) as Ha'.
  { rewrite Ea. destruct (l ++ [y]) as [|y1 l1] eqn:E; [by destruct l|].
    by rewrite <- E, last_last. }
  assert (extract_first_last (normalize_nome (default "" nome_mae))
          = Ok (x', Str y')) as Hm'.
  { rewrite Em. destruct (l' ++ [y']) as [|y2 l2] eqn:E; [by destruct l'|].
    by rewrite <- E, last_last. }
  unfold gerar_assinatura. by rewrite Ha', Hm'.
Qed.

Lemma gerar_assinatura_six_fields_witness :
  gerar_assinatura (Some "Maria da Silva") (Some "2001-02-03")
                   (Some "Ana de Souza Lima") None
  = Ok ("maria" +:+ " " +:+ "silva" +:+ " " +:+ "2001-02-03" +:+ " "
        +:+ "ana" +:+ " " +:+ "lima" +:+ " " +:+ "None").
Proof.
  apply (gerar_assinatura_six_fields (Some "Maria da Silva") (Some "2001-02-03")
           (Some "Ana de Souza Lima") None "maria" "silva" "ana" "lima"
           [] ["souza"]); vm_compute; reflexivity.
Defined.

(** X9. The signature of a record is the signature of the record with its
    names normalized: case, connectives and whitespace of the names do not
    reach the signature. *)
Theorem gerar_assinatura_normalized
    (nome_aluno nome_mae : string) (data_nasc sexo : option string) :
  gerar_assinatura (Some (normalize_nome nome_aluno)) data_nasc
                   (Some (normalize_nome nome_mae)) sexo
  = gerar_assinatura (Some nome_aluno) data_nasc (Some nome_mae) sexo.
Proof.
  unfold gerar_assinatura. simpl. by rewrite !normalize_nome_twice.
Qed.

Lemma gerar_assinatura_length
    (nome_aluno data_nasc nome_mae sexo : option string) (sig : string) :
  gerar_assinatura nome_aluno data_nasc nome_mae sexo = Ok sig →
  (5 ≤ String.length sig)%nat.
Proof.
  unfold gerar_assinatura.
  destruct (extract_first_last (normalize_nome (default "" nome_aluno)))
    as [[pn_a un_a]|]; [|done].
  destruct (extract_first_last (normalize_nome (default "" nome_mae)))
    as [[pn_m un_m]|]; [|done].
  intros [= <-]. rewrite !length_append. simpl. lia.
Qed.

(** X10. A signature that the builder returns has five separating spaces,
    so it is never empty, and [lev_score] of a pair in which it takes part is
    never NULL. *)
Theorem gerar_assinatura_not_empty
    (nome_aluno data_nasc nome_mae sexo : option string) (sig other : string) :
  gerar_assinatura nome_aluno data_nasc nome_mae sexo = Ok sig →
  (5 ≤ String.length sig)%nat
  ∧ (∃ l, lev_score sig other = Some l)
  ∧ (∃ l, lev_score other sig = Some l).
Proof.
  intros Hlen%gerar_assinatura_length. split; [done|].
  split.
  - destruct (lev_score_bounds sig other) as (l & Hl & _); [|by exists l].
    unfold len_max. case_match eqn:E; [lia|]. apply Nat.ltb_ge in E. lia.
  - destruct (lev_score_bounds other sig) as (l & Hl & _); [|by exists l].
    unfold len_max. case_match eqn:E; [|lia]. apply Nat.ltb_lt in E. lia.
Qed.

Lemma gerar_assinatura_not_empty_witness :
  (5 ≤ String.length "maria silva 2001-02-03 ana lima F")%nat
  ∧ (∃ l, lev_score "maria silva 2001-02-03 ana lima F" "" = Some l)
  ∧ (∃ l, lev_score "" "maria silva 2001-02-03 ana lima F" = Some l).
Proof.
  apply (gerar_assinatura_not_empty (Some "Maria da Silva") (Some "2001-02-03")
           (Some "Ana de Souza Lima") (Some "F")).
  vm_compute. reflexivity.
Defined.

Lemma is_token_cons (t : string) :
  is_token t = true → ∃ c r, t = String c r ∧ no_space t = true.
Proof.
  intros [Hn Hne]%andb_true_iff. destruct t as [|c r]; [done|].
  by exists c, r.
Qed.

Lemma space_app (r : string) : " " +:+ r = String " " r.
Proof. reflexivity. Qed.

(** X11. When both normalized names have two tokens or more and the birth
    date and the sex are single tokens, splitting the signature gives back
    its six fields: these are the tokens that the Jaccard value compares. *)
Theorem split_gerar_assinatura
    (nome_aluno nome_mae : option string) (data_nasc sexo : string)
    (x y x' y' : string) (l l' : list string) :
  split (normalize_nome (default "" nome_aluno)) = x :: l ++ [y] →
  split (normalize_nome (default "" nome_mae)) = x' :: l' ++ [y'] →
  is_token data_nasc = true → is_token sexo = true →
  ∃ sig, gerar_assinatura nome_aluno (Some data_nasc) nome_mae (Some sexo)
         = Ok sig
         ∧ split sig = [x; y; data_nasc; x'; y'; sexo].
Proof.
  intros Ha Hm Hd Hs.
  pose proof (split_tokens (normalize_nome (default "" nome_aluno))) as Ta.
  pose proof (split_tokens (normalize_nome (default "" nome_mae))) as Tm.
  rewrite Ha in Ta. rewrite Hm in Tm.
  apply Forall_cons in Ta as [Tx Ta]. apply Forall_app in Ta as [_ Ty].
  apply Forall_cons in Tm as [Tx' Tm]. apply Forall_app in Tm as [_ Ty'].
  rewrite Forall_singleton in Ty. rewrite Forall_singleton in Ty'.
  eexists. split.
  - by apply (gerar_assinatura_tokens _ _ _ _ x y x' y' l l').
  - simpl format_arg. rewrite !space_app.
    rewrite (split_token_app x) by done.
    rewrite (split_token_app y) by done.
    rewrite (split_token_app data_nasc) by done.
    rewrite (split_token_app x') by done.
    rewrite (split_token_app y') by done.
    by rewrite (split_token sexo).
Qed.

Lemma split_gerar_assinatura_witness :
  ∃ sig, gerar_assinatura (Some "Maria da Silva") (Some "2001-02-03")
                          (Some "Ana de Souza Lima") (Some "F") = Ok sig
         ∧ split sig = ["maria"; "silva"; "2001-02-03"; "ana"; "lima"; "F"].
Proof.
  apply (split_gerar_assinatura (Some "Maria da Silva")
           (Some "Ana de Souza Lima") "2001-02-03" "F"
           "maria" "silva" "ana" "lima" [] ["souza"]);
    vm_compute; reflexivity.
Defined.

(** ** Similarity scorer: the Jaccard value *)

Lemma jaccard_udf_token_set (a b : string) :
  jaccard_udf a b
  = if decide (size (token_set a ∪ token_set b) ≠ 0%nat)
    then (of_nat (size (token_set a ∩ token_set b))
          / of_nat (size (token_set a ∪ token_set b)))%Q
    else 0%Q.
Proof. reflexivity. Qed.

Lemma of_nat_ratio_zero (m n : nat) :
  (0 < n)%nat → (of_nat m / of_nat n == 0)%Q ↔ m = 0%nat.
Proof.
  intros Hn.
  assert (0 < of_nat n)%Q as Hpos.
  { unfold of_nat. rewrite <- (Zlt_Qlt 0). lia. }
  split.
  - intros H.
    assert (of_nat m == of_nat 0)%Q as He.
    { transitivity (of_nat m / of_nat n * of_nat n)%Q.
      - field. intros Hz. rewrite Hz in Hpos. by apply Qlt_irrefl in Hpos.
      - rewrite H. apply Qmult_0_l. }
    unfold of_nat in He. apply (proj1 (inject_Z_injective _ _)) in He. lia.
  - intros ->. unfold Qdiv. apply Qmult_0_l.
Qed.

Lemma of_nat_ratio_one (m n : nat) :
  (0 < n)%nat → (of_nat m / of_nat n == 1)%Q ↔ m = n.
Proof.
  intros Hn.
  assert (0 < of_nat n)%Q as Hpos.
  { unfold of_nat. rewrite <- (Zlt_Qlt 0). lia. }
  split.
  - intros H.
    assert (of_nat m == of_nat n)%Q as He.
    { rewrite <- (Qmult_1_l (of_nat n)), <- H.
      field. intros Hz. rewrite Hz in Hpos. by apply Qlt_irrefl in Hpos. }
    unfold of_nat in He. apply (proj1 (inject_Z_injective _ _)) in He. lia.
  - intros ->. field. intros Hz. rewrite Hz in Hpos.
    by apply Qlt_irrefl in Hpos.
Qed.

(** X12. The Jaccard value does not depend on the order of its two
    arguments. *)
Theorem jaccard_udf_sym (str1 str2 : string) :
  jaccard_udf str1 str2 = jaccard_udf str2 str1.
Proof.
  rewrite !jaccard_udf_token_set.
  by rewrite (comm_L (∪) (token_set str1)), (comm_L (∩) (token_set str1)).
Qed.

(** X13. The Jaccard value is 0 exactly when the two texts share no token;
    this includes two texts without token, where the guard on the empty
    union applies. *)
Theorem jaccard_udf_zero_iff (str1 str2 : string) :
  (jaccard_udf str1 str2 == 0)%Q ↔ ∀ t, t ∈ split str1 → t ∉ split str2.
Proof.
  rewrite jaccard_udf_token_set.
  assert ((∀ t, t ∈ split str1 → t ∉ split str2)
          ↔ size (token_set str1 ∩ token_set str2) = 0%nat) as ->.
  { rewrite size_empty_iff, elem_of_equiv_empty. unfold token_set. split.
    - intros H t [H1 H2]%elem_of_intersection.
      apply elem_of_list_to_set in H1, H2. destruct (H t H1 H2).
    - intros H t H1 H2. apply (H t). apply elem_of_intersection.
      split; by apply elem_of_list_to_set. }
  case_decide as Hu.
  - apply of_nat_ratio_zero. lia.
  - split; [intros _|done].
    assert (size (token_set str1 ∩ token_set str2)
            ≤ size (token_set str1 ∪ token_set str2))%nat; [|lia].
    apply subseteq_size. intros x [Hx _]%elem_of_intersection.
    apply elem_of_union. by left.
Qed.

(** X14. The Jaccard value is 1 exactly when the two texts have the same
    tokens and at least one: the order of the tokens and their repetition do
    not count. *)
Theorem jaccard_udf_one_iff (str1 str2 : string) :
  (jaccard_udf str1 str2 == 1)%Q
  ↔ split str1 ≠ [] ∧ ∀ t, t ∈ split str1 ↔ t ∈ split str2.
Proof.
  rewrite jaccard_udf_token_set.
  assert (token_set str1 ∩ token_set str2 ⊆ token_set str1 ∪ token_set str2)
    as Hsub.
  { intros x [Hx _]%elem_of_intersection. apply elem_of_union. by left. }
  case_decide as Hu.
  - rewrite of_nat_ratio_one by lia. split.
    + intros Hsz.
      assert (token_set str1 ∩ token_set str2
              = token_set str1 ∪ token_set str2) as Heq.
      { apply set_subseteq_size_eq; [done|lia]. }
      assert (∀ t, t ∈ split str1 ↔ t ∈ split str2) as Hiff.
      { intros t. unfold token_set in Heq.
        rewrite <- !(elem_of_list_to_set (C := gset string)).
        split; intros Ht.
        - assert (t ∈ list_to_set (C := gset string) (split str1)
                      ∪ list_to_set (split str2)) as Hin
            by (apply elem_of_union; by left).
          rewrite <- Heq in Hin. by apply elem_of_intersection in Hin as [_ ?].
        - assert (t ∈ list_to_set (C := gset string) (split str1)
                      ∪ list_to_set (split str2)) as Hin
            by (apply elem_of_union; by right).
          rewrite <- Heq in Hin. by apply elem_of_intersection in Hin as [? _]. }
      split; [|done]. intros He.
      apply Hu. apply size_empty_iff, elem_of_equiv_empty.
      unfold token_set. rewrite He.
      intros t [Ht|Ht]%elem_of_union.
      * by apply elem_of_list_to_set, elem_of_nil in Ht.
      * apply elem_of_list_to_set, Hiff in Ht. rewrite He in Ht.
        by apply elem_of_nil in Ht.
    + intros [_ Hiff]. f_equal. apply set_eq. intros t. unfold token_set.
      rewrite elem_of_intersection, elem_of_union, !elem_of_list_to_set.
      specialize (Hiff t). tauto.
  - split; [intros H; symmetry in H; by apply Q_apart_0_1 in H|].
    intros [Hne Hiff]. exfalso.
    apply size_empty_iff in Hu. rewrite elem_of_equiv_empty in Hu.
    destruct (split str1) as [|t l] eqn:E; [done|].
    apply (Hu t). apply elem_of_union. left. unfold token_set.
    rewrite E. apply elem_of_list_to_set. by left.
Qed.

(** ** Similarity scorer: the edit distance *)

Lemma hd_on_suffixes (f : string → nat) (t : string) :
  hd 0%nat (on_suffixes f t) = f t.
Proof. by destruct t. Qed.

Lemma tail_on_suffixes (f : string → nat) (b : ascii) (t : string) :
  tail (on_suffixes f (String b t)) = on_suffixes f t.
Proof. reflexivity. Qed.

Lemma first_row_spec (t : string) : first_row t = on_suffixes String.length t.
Proof. induction t; simpl; [done|]. by rewrite IHt. Qed.

Lemma lev_spec_cons_cons (a b : ascii) (s t : string) :
  lev_spec (String a s) (String b t)
  = Nat.min (Nat.min (S (lev_spec s (String b t))) (S (lev_spec (String a s) t)))
            (lev_spec s t + if Ascii.eqb a b then 0 else 1)%nat.
Proof. reflexivity. Qed.

Lemma lev_spec_nil_r (s : string) : lev_spec s "" = String.length s.
Proof. by destruct s. Qed.

Lemma next_row_spec (a : ascii) (s t : string) :
  next_row a (String.length (String a s)) t (on_suffixes (lev_spec s) t)
  = on_suffixes (lev_spec (String a s)) t.
Proof.
  induction t as [|b t IH]; [done|].
  cbn [next_row]. rewrite tail_on_suffixes, IH.
  rewrite !hd_on_suffixes. cbn [on_suffixes].
  by rewrite lev_spec_cons_cons.
Qed.

Lemma lev_row_spec (s t : string) : lev_row s t = on_suffixes (lev_spec s) t.
Proof.
  induction s as [|a s IH]; cbn [lev_row].
  - apply first_row_spec.
  - rewrite IH. apply next_row_spec.
Qed.

(** The table that [levenshtein] fills holds the distance of the
    recurrence. *)
Lemma levenshtein_spec (s t : string) : levenshtein s t = lev_spec s t.
Proof. unfold levenshtein. by rewrite lev_row_spec, hd_on_suffixes. Qed.

Lemma lev_spec_sym (s t : string) : lev_spec s t = lev_spec t s.
Proof.
  revert t. induction s as [|a s IHs]; intros t.
  - by rewrite lev_spec_nil_r.
  - induction t as [|b t IHt]; [done|].
    rewrite !lev_spec_cons_cons, IHt, (IHs t), (IHs (String b t)).
    rewrite (Ascii.eqb_sym b a). lia.
Qed.

Lemma lev_spec_zero (s t : string) : lev_spec s t = 0%nat ↔ s = t.
Proof.
  revert t. induction s as [|a s IHs]; intros t.
  - destruct t; simpl; split; (done || lia || discriminate).
  - destruct t as [|b t]; [split; (discriminate || simpl; lia)|].
    rewrite lev_spec_cons_cons. split.
    + intros H.
      destruct (Ascii.eqb_spec a b) as [->|Hne]; [|lia].
      f_equal. apply IHs. lia.
    + intros [= -> ->]. rewrite Ascii.eqb_refl.
      rewrite (proj2 (IHs t) eq_refl). lia.
Qed.

Lemma len_max_sym (a b : string) : len_max a b = len_max b a.
Proof.
  unfold len_max.
  destruct (Nat.ltb_spec (String.length b) (String.length a)),
    (Nat.ltb_spec (String.length a) (String.length b)); lia.
Qed.

(** X15. [levenshtein] is a distance between signatures: it is 0 exactly
    for equal texts, it is symmetric, and it is at most the length of the
    longer text. *)
Theorem levenshtein_distance (s t : string) :
  (levenshtein s t = 0%nat ↔ s = t)
  ∧ levenshtein s t = levenshtein t s
  ∧ (levenshtein s t ≤ Nat.max (String.length s) (String.length t))%nat.
Proof.
  split_and!.
  - rewrite levenshtein_spec. apply lev_spec_zero.
  - rewrite !levenshtein_spec. apply lev_spec_sym.
  - pose proof (levenshtein_le_len_max s t) as H. unfold len_max in H.
    destruct (Nat.ltb_spec (String.length t) (String.length s)); lia.
Qed.

(** X16. The scores of a pair do not depend on which of the two records
    comes first. *)
Theorem score_final_sym (a b : string) :
  lev_score a b = lev_score b a ∧ score_final a b = score_final b a.
Proof.
  assert (lev_score a b = lev_score b a) as Hl.
  { unfold lev_score, lev_dist.
    by rewrite (len_max_sym a b), !levenshtein_spec, (lev_spec_sym a b). }
  split; [done|].
  unfold score_final, jaccard. rewrite Hl.
  f_equal. f_equal. f_equal.
  rewrite !jaccard_udf_token_set.
  by rewrite (comm_L (∪) (token_set a)), (comm_L (∩) (token_set a)).
Qed.

(** ** Scores and statuses of a pair *)









(** X19. Only a pair whose two birth dates and two sexes are all present
    and both differ can get Q006: a NULL among them leaves the condition
    unknown and sends the pair on to VALIDAR_NOMES. *)
Theorem status_final_Q006 (a b : Registro) (score : option Q) :
  status_final a b score = "Q006" →
  cpf a ≠ None
  ∧ ∃ da db sa sb,
      data_nasc a = Some da ∧ data_nasc b = Some db
      ∧ sexo a = Some sa ∧ sexo b = Some sb ∧ da ≠ db ∧ sa ≠ sb.
Proof.
  unfold status_final. case_bool_decide as Hk; [done|].
  destruct (holds (sql_ge _ _)); [intros [=]|].
  destruct (holds (sql_lt _ _)); [intros [=]|].
  destruct (holds (sql_and _ _)) eqn:Hand; [|intros [=]]. intros _.
  split; [done|].
  apply holds_sql_and in Hand as [Hd Hs].
  destruct (data_nasc a) as [da|], (data_nasc b) as [db|]; try done.
  destruct (sexo a) as [sa|], (sexo b) as [sb|]; try done.
  apply holds_sql_ne in Hd. apply holds_sql_ne in Hs.
  by exists da, db, sa, sb.
Qed.

Lemma status_final_Q006_witness :
  cpf maria_1 ≠ None
  ∧ ∃ da db sa sb,
      data_nasc maria_1 = Some da ∧ data_nasc maria_3 = Some db
      ∧ sexo maria_1 = Some sa ∧ sexo maria_3 = Some sb ∧ da ≠ db ∧ sa ≠ sb.
Proof.
  apply (status_final_Q006 maria_1 maria_3 (Some (65 # 100)%Q)).
  vm_compute. reflexivity.
Defined.

(** ** Pairs and rows of the result *)

(** X20. A pair is generated in one direction only, and never of a record
    with itself. *)
Theorem df_joined_one_direction (df : list Registro) (a b : Registro) :
  (a, b) ∈ df_joined df → ((b, a) ∉ df_joined df) ∧ a ≠ b.
Proof.
  intros (_ & _ & _ & Hid & _)%elem_of_df_joined. split.
  - intros (_ & _ & _ & Hid' & _)%elem_of_df_joined. lia.
  - intros ->. lia.
Qed.

Lemma df_joined_one_direction_witness :
  ((maria_2, maria_1) ∉ df_joined tabela) ∧ maria_1 ≠ maria_2.
Proof.
  apply (df_joined_one_direction tabela maria_1 maria_2).
  apply elem_of_df_joined.
  split_and!; [set_solver|set_solver|by exists "111"|done|done].
Defined.

(** X21. The pairs of a key only depend on the records with that key: a
    pair is generated from the table exactly when it is generated from the
    records that have the key of its first record. *)
Theorem df_joined_by_key (df : list Registro) (a b : Registro) :
  (a, b) ∈ df_joined df
  ↔ (a, b) ∈ df_joined (filter (λ r, cpf r = cpf a) df).
Proof.
  rewrite !elem_of_df_joined, !list_elem_of_filter. split.
  - intros (Ha & Hb & (k & Hka & Hkb) & Hid & Hne).
    split_and!; try done; [congruence|by exists k].
  - intros ([_ Ha] & [_ Hb] & Hk & Hid & Hne). done.
Qed.



(** ** Keys with pairs and records without *)

(** X23. The keys with pairs are listed once each, none of them is NULL,
    and a key is listed exactly when it is the key of a generated pair. *)
Theorem cpfs_duplicados_keys (df : list Registro) :
  NoDup (cpfs_duplicados df)
  ∧ (None ∉ cpfs_duplicados df)
  ∧ ∀ k, Some k ∈ cpfs_duplicados df
         ↔ ∃ a b, (a, b) ∈ df_joined df ∧ cpf a = Some k ∧ cpf b = Some k.
Proof.
  split_and!.
  - apply NoDup_remove_dups.
  - intros (a & b & (_ & _ & (k & Ha & _) & _)%elem_of_df_joined & Hn)
      %cpfs_duplicados_spec.
    congruence.
  - intros k. rewrite cpfs_duplicados_spec. split.
    + intros (a & b & Hab & Ha). exists a, b. split_and!; try done.
      apply elem_of_df_joined in Hab as (_ & _ & (k' & Ha' & Hb') & _).
      congruence.
    + intros (a & b & Hab & Ha & _). by exists a, b.
Qed.

(** X24. The anti-join keeps exactly the records whose key is NULL or is the
    key of no pair, each as it is and as often as the table has it. *)
Theorem df_unicos_exact (df : list Registro) :
  df_unicos df
  ≡ₚ filter (λ r, cpf r = None ∨ cpf r ∉ cpfs_duplicados df) df
  ∧ ∀ r, r ∈ df_unicos df
         ↔ r ∈ df ∧ (cpf r = None ∨ cpf r ∉ cpfs_duplicados df).
Proof.
  assert (∀ r, Forall (λ k, holds (sql_eq (cpf r) k) = false)
                      (cpfs_duplicados df)
               ↔ cpf r = None ∨ cpf r ∉ cpfs_duplicados df) as Hiff.
  { intros r. rewrite Forall_forall. split.
    - intros H. destruct (cpf r) as [k|] eqn:Hk; [right|by left].
      intros Hin. specialize (H _ Hin). simpl in H.
      by rewrite String.eqb_refl in H.
    - intros [Hn|Hn] k Hk.
      + by rewrite Hn.
      + destruct (holds (sql_eq (cpf r) k)) eqn:He; [|done].
        apply holds_sql_eq in He as (k' & Hr & ->). by rewrite Hr in Hn. }
  split.
  - unfold df_unicos. by rewrite (list_filter_iff _ _ df Hiff).
  - intros r. unfold df_unicos. rewrite list_elem_of_filter, Hiff. tauto.
Qed.

(** X25. A record without key is always among the records that the
    anti-join keeps. *)
Theorem df_unicos_null_key (df : list Registro) (r : Registro) :
  r ∈ df → cpf r = None → r ∈ df_unicos df.
Proof. intros Hr Hk. apply df_unicos_spec. split; [done|]. by left. Qed.

Lemma df_unicos_null_key_witness : sem_cpf ∈ df_unicos tabela.
Proof.
  apply (df_unicos_null_key tabela sem_cpf); [|reflexivity].
  unfold tabela. set_solver.
Defined.

(** X26. When all records with the key of a record have its signature, the
    anti-join keeps the record: records that repeat a key with one and the
    same signature all pass as records without conflict. *)
Theorem df_unicos_agreeing (df : list Registro) (r : Registro) :
  r ∈ df →
  (∀ r', r' ∈ df → cpf r' = cpf r → assinatura r' = assinatura r) →
  r ∈ df_unicos df.
Proof.
  intros Hr Hall. apply df_unicos_spec. split; [done|].
  intros a b (Ha & Hb & (k & Hka & Hkb) & _ & Hne)%elem_of_df_joined.
  destruct (cpf r) as [k'|] eqn:Hk; [right|by left].
  intros Heq. apply Hne.
  rewrite (Hall a Ha) by congruence. rewrite (Hall b Hb) by congruence. done.
Qed.

Lemma df_unicos_agreeing_witness :
  maria_1 ∈ df_unicos [maria_1; maria_1; jose].
Proof.
  apply (df_unicos_agreeing [maria_1; maria_1; jose] maria_1).
  - set_solver.
  - intros r' Hr' Hk.
    apply elem_of_cons in Hr' as [->|Hr']; [reflexivity|].
    apply elem_of_cons in Hr' as [->|Hr']; [reflexivity|].
    apply elem_of_cons in Hr' as [->|Hr']; [discriminate Hk|].
    by apply elem_of_nil in Hr'.
Defined.

(** X27. Every record of the table is either kept by the anti-join or has a
    key with pairs, and never both. *)
Theorem df_unicos_or_duplicado (df : list Registro) (r : Registro) :
  r ∈ df →
  (r ∈ df_unicos df ∨ cpf r ∈ cpfs_duplicados df)
  ∧ ¬ (r ∈ df_unicos df ∧ cpf r ∈ cpfs_duplicados df).
Proof.
  intros Hr. split.
  - destruct (decide (cpf r ∈ cpfs_duplicados df)) as [?|Hn]; [by right|left].
    apply df_unicos_spec. split; [done|].
    intros a b Hab. right. intros Ha. apply Hn.
    apply cpfs_duplicados_spec. by exists a, b.
  - intros [[_ Hu]%df_unicos_spec (a & b & Hab & Ha)%cpfs_duplicados_spec].
    destruct (Hu a b Hab) as [Hn|?]; [|done].
    apply elem_of_df_joined in Hab as (_ & _ & (k & Hka & _) & _). congruence.
Qed.

Lemma df_unicos_or_duplicado_witness :
  (jose ∈ df_unicos tabela ∨ cpf jose ∈ cpfs_duplicados tabela)
  ∧ ¬ (jose ∈ df_unicos tabela ∧ cpf jose ∈ cpfs_duplicados tabela).
Proof.
  apply (df_unicos_or_duplicado tabela jose). unfold tabela. set_solver.
Defined.

(** ** The order of the rows *)

Lemma cprod_Permutation {A B} (l l' : list A) (k k' : list B) :
  l ≡ₚ l' → k ≡ₚ k' → cprod l k ≡ₚ cprod l' k'.
Proof.
  intros Hl Hk. trans (cprod l k').
  - unfold cprod, list_cprod. clear Hl.
    induction l as [|x l IH]; [done|]. simpl.
    by rewrite IH, Hk.
  - unfold cprod, list_cprod. by rewrite Hl.
Qed.

Lemma df_joined_Permutation (df df' : list Registro) :
  df ≡ₚ df' → df_joined df ≡ₚ df_joined df'.
Proof.
  intros H. unfold df_joined. by rewrite (cprod_Permutation df df' df df' H H).
Qed.

(** X28. The order of the rows of the table does not matter: a table with
    the same rows in another order gives the same pairs, result rows,
    pairs to ingest, log rows and kept records, up to their order. *)
Theorem pipeline_Permutation (df df' : list Registro) :
  df ≡ₚ df' →
  df_joined df ≡ₚ df_joined df'
  ∧ df_resultado df ≡ₚ df_resultado df'
  ∧ df_ingestao df ≡ₚ df_ingestao df'
  ∧ df_log df ≡ₚ df_log df'
  ∧ df_unicos df ≡ₚ df_unicos df'.
Proof.
  intros H. pose proof (df_joined_Permutation df df' H) as Hj.
  assert (df_resultado df ≡ₚ df_resultado df') as Hr.
  { unfold df_resultado. by rewrite Hj. }
  split_and!; try done.
  - unfold df_ingestao. by rewrite Hr.
  - unfold df_log. by rewrite Hr.
  - unfold df_unicos. rewrite <- H.
    erewrite list_filter_iff; [done|].
    intros r. rewrite !Forall_forall. unfold cpfs_duplicados.
    split; intros Hall k Hk; apply Hall;
      rewrite elem_of_remove_dups in Hk |- *;
      [by rewrite Hr | by rewrite <- Hr].
Qed.

Lemma pipeline_Permutation_witness :
  df_joined [maria_1; maria_2] ≡ₚ df_joined [maria_2; maria_1]
  ∧ df_resultado [maria_1; maria_2] ≡ₚ df_resultado [maria_2; maria_1]
  ∧ df_ingestao [maria_1; maria_2] ≡ₚ df_ingestao [maria_2; maria_1]
  ∧ df_log [maria_1; maria_2] ≡ₚ df_log [maria_2; maria_1]
  ∧ df_unicos [maria_1; maria_2] ≡ₚ df_unicos [maria_2; maria_1].
Proof.
  apply (pipeline_Permutation [maria_1; maria_2] [maria_2; maria_1]).
  apply perm_swap.
Defined.

(** ** Normalizer and tokens *)

Lemma is_conectivo_all_word (t : string) :
  is_conectivo t = true → all_word t = true.
Proof.
  unfold is_conectivo, conectivos. simpl.
  destruct (String.eqb_spec t "de") as [->|_]; [done|].
  destruct (String.eqb_spec t "da") as [->|_]; [done|].
  destruct (String.eqb_spec t "do") as [->|_]; [done|].
  destruct (String.eqb_spec t "das") as [->|_]; [done|].
  destruct (String.eqb_spec t "dos") as [->|_]; [done|].
  done.
Qed.

Lemma word_prefix_split_aux (s : string) :
  all_word (split_aux s).1 = true → word_prefix s = (split_aux s).1.
Proof.
  induction s as [|c r IH]; [done|]. simpl.
  destruct (split_aux r) as [w ws]. simpl in *.
  destruct (Char.is_space c) eqn:Hc; simpl.
  - intros _. by rewrite (space_not_word c Hc).
  - intros [-> Hw]%andb_true_iff. by rewrite IH.
Qed.

Lemma no_match_split_aux (p : bool) (s : string) :
  no_match p s →
  Forall (λ t, is_conectivo t = false) (split_aux s).2
  ∧ (p = false → is_conectivo (split_aux s).1 = false).
Proof.
  revert p. induction s as [|c r IH]; intros p; [done|].
  intros [Hm Hr]. destruct (IH _ Hr) as [IHws IHw].
  pose proof (word_prefix_split_aux (String c r)) as Hwp.
  simpl in *. destruct (split_aux r) as [w ws]. simpl in *.
  destruct (Char.is_space c) eqn:Hc; simpl in *.
  - split; [|done]. specialize (IHw (space_not_word c Hc)).
    destruct w; [done|]. by constructor.
  - split; [done|]. intros ->.
    destruct (is_conectivo (String c w)) eqn:Hcon; [|done].
    rewrite match_conectivo_spec in Hm. simpl in Hm.
    rewrite (Hwp (is_conectivo_all_word _ Hcon)), Hcon in Hm. done.
Qed.

(** X29. No token of a normalized name is one of the connectives, so the
    first and the last token that go into the signature never are. *)
Theorem split_normalize_nome_no_conectivo (x t : string) :
  t ∈ split (normalize_nome x) → is_conectivo t = false.
Proof.
  pose proof (no_match_split_aux false _ (normalize_nome_no_match x))
    as [Hws Hw].
  unfold split. destruct (split_aux (normalize_nome x)) as [w ws].
  simpl in *. intros Ht.
  assert (t ∈ w :: ws) as [->| Hin]%elem_of_cons.
  { destruct w; [by right|done]. }
  - by apply Hw.
  - rewrite Forall_forall in Hws. by apply Hws.
Qed.

Lemma split_normalize_nome_no_conectivo_witness :
  is_conectivo "silva" = false.
Proof.
  apply (split_normalize_nome_no_conectivo "Maria de Silva dos" "silva").
  vm_compute. set_solver.
Defined.
